(** * PR on-boarding: the message envelope, the checklists and the event handler

    A shallow embedding of [src/lib/features/pr-onboarding.ts].

    - JavaScript strings are sequences of UTF-16 code units: [str] is
      [list N].  Literals of the source are written [lit "..."]; the line
      feed and the double quote are the code units [nl] and [dq].
    - [String.prototype.split], [trim], the array index and the string
      concatenation of [undefined] are written out as the language defines
      them.
    - [dedent] (the template tag of the npm package of that name, 0.7.0)
      is embedded step by step: interpolation, indentation stripping,
      trimming, and the final replacement of a written-out backslash-n.
    - The collaborators of the feature that live in other modules of the
      repository ([../models/checklist], [../models/label], ...) are the
      fields of the class [Collaborators].
    - The handler is a computation in a small monad that records the calls
      made to the platform and ends normally or with a thrown value.  The
      calls that change the pull request may fail; the functions that only
      read ([getConfig], [listLabelsForRepo], [sentByThisApp], ...) answer,
      and the calls to [logger.debug] are left out. *)

From Stdlib Require Import Ascii String List NArith Arith Bool Lia.
Import ListNotations.
Open Scope string_scope.
Open Scope nat_scope.
Open Scope list_scope.

(** ** Strings *)

(** A code unit, and a string. *)
Abbreviation char := N (only parsing).
Abbreviation str := (list N) (only parsing).

Definition lit (s : string) : str := map N_of_ascii (list_ascii_of_string s).

Definition nl : char := 10%N.
Definition dq : char := 34%N.
Definition space : char := 32%N.
Definition tab : char := 9%N.
Definition backslash : char := 92%N.
Definition backtick : char := 96%N.
Definition letter_n : char := 110%N.

Definition char_eqb (a b : char) : bool := N.eqb a b.

Fixpoint str_eqb (a b : str) : bool :=
  match a, b with
  | [], [] => true
  | x :: a', y :: b' => char_eqb x y && str_eqb a' b'
  | _, _ => false
  end.

(** [s.startsWith(p)] *)
Fixpoint starts_with (p s : str) : bool :=
  match p, s with
  | [], _ => true
  | a :: p', b :: s' => char_eqb a b && starts_with p' s'
  | _ :: _, [] => false
  end.

(** The first occurrence of [sep] in [s]: the text before it and the text
    after it. *)
Fixpoint cut (sep s : str) : option (str * str) :=
  if starts_with sep s then Some ([], skipn (length sep) s)
  else match s with
       | [] => None
       | c :: s' =>
           match cut sep s' with
           | Some (b, a) => Some (c :: b, a)
           | None => None
           end
       end.

(** [s.includes(sep)] *)
Definition includes (sep s : str) : bool :=
  match cut sep s with Some _ => true | None => false end.

Fixpoint split_fuel (fuel : nat) (sep s : str) : list str :=
  match fuel with
  | 0 => [s]
  | S n =>
      match cut sep s with
      | None => [s]
      | Some (b, a) => b :: split_fuel n sep a
      end
  end.

(** [s.split(sep)] for a string separator and no limit.  The empty
    separator splits between code units. *)
Definition split (sep s : str) : list str :=
  match sep with
  | [] => map (fun c => [c]) s
  | _ :: _ => split_fuel (length s) sep s
  end.

(** [parts.join(sep)] *)
Fixpoint join (sep : str) (parts : list str) : str :=
  match parts with
  | [] => []
  | [p] => p
  | p :: rest => p ++ sep ++ join sep rest
  end.

(** The code units matched by [\s] and removed by [trim]: WhiteSpace and
    LineTerminator of ECMAScript. *)
Definition is_ws (c : char) : bool :=
  ((9 <=? c) && (c <=? 13) || (c =? 32) || (c =? 160) || (c =? 5760)
   || (8192 <=? c) && (c <=? 8202) || (c =? 8232) || (c =? 8233)
   || (c =? 8239) || (c =? 8287) || (c =? 12288) || (c =? 65279))%N.

Fixpoint trim_start (s : str) : str :=
  match s with
  | [] => []
  | c :: s' => if is_ws c then trim_start s' else s
  end.

Definition trim_end (s : str) : str := rev (trim_start (rev s)).

(** [s.trim()] *)
Definition trim (s : str) : str := trim_end (trim_start s).

(** A value that may be [undefined], as an operand of [+] on strings. *)
Definition js_string (v : option str) : str :=
  match v with
  | Some s => s
  | None => lit "undefined"
  end.

(** Truthiness of a value that is a string or [undefined]. *)
Definition truthy (v : option str) : bool :=
  match v with
  | Some (_ :: _) => true
  | _ => false
  end.

(** ** dedent *)

Module Dedent.

(** [replace(/\\\n[ \t]*/g, "")] on a raw template string. *)
Inductive scan := Plain | AfterBackslash | Blanks.

Definition is_blank (c : char) : bool := char_eqb c space || char_eqb c tab.

Fixpoint join_suppressed (m : scan) (s : str) : str :=
  match s with
  | [] => []
  | c :: s' =>
      let plain :=
        if char_eqb c backslash && starts_with [nl] s'
        then join_suppressed AfterBackslash s'
        else c :: join_suppressed Plain s' in
      match m with
      | AfterBackslash => join_suppressed Blanks s'
      | Blanks => if is_blank c then join_suppressed Blanks s' else plain
      | Plain => plain
      end
  end.

(** [replace(/\\`/g, "`")] *)
Fixpoint unescape_backticks (s : str) : str :=
  match s with
  | [] => []
  | c :: s' =>
      if char_eqb c backslash && starts_with [backtick] s'
      then unescape_backticks s'
      else c :: unescape_backticks s'
  end.

Definition raw_piece (r : str) : str :=
  unescape_backticks (join_suppressed Plain r).

(** The interpolation loop: [strings.raw[i]] processed, then the [i]-th
    value when there is one. *)
Fixpoint interpolate (raw values : list str) : str :=
  match raw with
  | [] => []
  | r :: raw' =>
      raw_piece r ++
      match values with
      | v :: values' => v ++ interpolate raw' values'
      | [] => interpolate raw' []
      end
  end.

(** [l.match(/^(\s+)\S+/)]: the length of the leading white space of a line
    that has some and is followed by something else. *)
Fixpoint ws_run (l : str) : nat :=
  match l with
  | c :: l' => if is_ws c then S (ws_run l') else 0
  | [] => 0
  end.

Definition indent_of (l : str) : option nat :=
  let k := ws_run l in
  if (0 <? k) && (k <? length l) then Some k else None.

(** One turn of the [forEach] that computes [mindent]; [!mindent] holds of
    [null] and of [0]. *)
Definition mindent_step (mindent : option nat) (l : str) : option nat :=
  match indent_of l with
  | None => mindent
  | Some indent =>
      match mindent with
      | None | Some 0 => Some indent
      | Some m => Some (Nat.min m indent)
      end
  end.

Definition mindent_of (lines : list str) : option nat :=
  fold_left mindent_step lines None.

(** [l[0] === " " ? l.slice(mindent) : l] *)
Definition strip_line (mindent : nat) (l : str) : str :=
  match l with
  | c :: _ => if char_eqb c space then skipn mindent l else l
  | [] => l
  end.

Definition strip_indentation (result : str) : str :=
  let lines := split [nl] result in
  match mindent_of lines with
  | Some mindent => join [nl] (map (strip_line mindent) lines)
  | None => result
  end.

(** [replace(/\\n/g, "\n")] *)
Fixpoint expand_newlines (s : str) : str :=
  match s with
  | [] => []
  | c :: s' =>
      match s' with
      | d :: s'' =>
          if char_eqb c backslash && char_eqb d letter_n
          then nl :: expand_newlines s''
          else c :: expand_newlines s'
      | [] => [c]
      end
  end.

End Dedent.

Import Dedent.

(** [dedent`...`]: [raw] are the raw strings of the template and [values]
    the interpolated values. *)
Definition dedent (raw values : list str) : str :=
  expand_newlines (trim (strip_indentation (interpolate raw values))).

(** A text given by its lines. *)
Definition unlines (ls : list str) : str := join [nl] ls.
Definition text (ls : list string) : str := unlines (map lit ls).
Definition quoted (s : string) : str := dq :: lit s ++ [dq].

(** ** The message envelope *)

Definition MessageStart : str := lit "<!--- AutoPR:START --->".
Definition MessageEnd : str := lit "<!--- AutoPR:END --->".

Definition generated_by : string :=
  "    <sub>_Generated by [auto-it](https://github.com/apps/auto-it)_</sub>".

Definition messageWrapper_raw : list str :=
  [ text [""; "    "];
    text [" "; "    ---"; ""; "    "];
    text [""; ""; generated_by; "    "];
    text [" "; ""] ].

Definition messageWrapper (body : str) : str :=
  dedent messageWrapper_raw [MessageStart; body; MessageEnd].

Definition logo_line : str :=
  lit "    <img align=" ++ quoted "left" ++ lit " width=" ++ quoted "60"
  ++ lit " src=" ++ quoted "https://autobot.auto-it.now.sh/public/logo.png"
  ++ lit "/>".

Definition onBoardingMessage_raw : list str :=
  [ unlines
      [ [];
        logo_line;
        [];
        lit "    ### Choose a release label";
        [];
        lit "    This repository uses [auto](https://github.com/intuit/auto) to generate releases. In order to do that, ";
        lit "    it needs an appropriate label assigned to each PR. Choose a label below that you feel best suites your changes.";
        [];
        lit "    " ];
    text [""; "  "] ].

Definition onBoardingMessage (sections : list str) : str :=
  dedent onBoardingMessage_raw [join [nl; nl] sections].

(** What the evaluation of the feature ends with. *)
Definition rejection := str.

Inductive thrown :=
| TypeError                     (* a method called on [undefined] *)
| Rejected (reason : rejection) (* a rejection of the platform, rethrown *)
| Error (message : str).        (* [new Error(message)] *)

Inductive outcome (A : Type) :=
| Return (a : A)
| Throw (e : thrown).
Arguments Return {A} a.
Arguments Throw {A} e.

(** [body.split(MessageStart)[1].split(MessageEnd)[0]] *)
Definition parseMessage (body : str) : outcome str :=
  match nth_error (split MessageStart body) 1 with
  | None => Throw TypeError
  | Some bottomHalf => Return (hd [] (split MessageEnd bottomHalf))
  end.

(** [overwriteMessage], on the body of the pull request of the context. *)
Definition overwriteMessage (body content : str) : outcome str :=
  let parts := split MessageStart body in
  let start := nth_error parts 0 in
  match nth_error parts 1 with
  | None => Throw TypeError
  | Some bottomHalf =>
      let end_ := nth_error (split MessageEnd bottomHalf) 1 in
      Return (js_string start ++ messageWrapper content ++ js_string end_)
  end.

(** [body.includes(MessageStart)] *)
Definition isOnboarding (body : str) : bool := includes MessageStart body.

(** ** Checklists *)

Record ChecklistItem := {
  item_id : str;
  checked : bool;
  item_body : str
}.

Record Checklist := {
  checklist_id : str;
  items : list ChecklistItem
}.

(** The object returned by [parseChecklists]: its properties, in property
    order, each holding a checklist. *)
Definition Checklists := list (str * Checklist).

(** [checklists[key]] *)
Fixpoint property (key : str) (o : Checklists) : option Checklist :=
  match o with
  | [] => None
  | (k, c) :: o' => if str_eqb k key then Some c else property key o'
  end.

(** [Object.values(checklists)] *)
Definition values (o : Checklists) : list Checklist := map snd o.

(** lodash's [isEqual] on these values: arrays are compared in order,
    objects property by property whatever the order. *)
Definition item_isEqual (a b : ChecklistItem) : bool :=
  str_eqb (item_id a) (item_id b) && Bool.eqb (checked a) (checked b)
  && str_eqb (item_body a) (item_body b).

Fixpoint items_isEqual (a b : list ChecklistItem) : bool :=
  match a, b with
  | [], [] => true
  | x :: a', y :: b' => item_isEqual x y && items_isEqual a' b'
  | _, _ => false
  end.

Definition checklist_isEqual (a b : Checklist) : bool :=
  str_eqb (checklist_id a) (checklist_id b) && items_isEqual (items a) (items b).

Definition isEqual (a b : Checklists) : bool :=
  (length a =? length b)
  && forallb (fun kc => match property (fst kc) b with
                        | Some c' => checklist_isEqual (snd kc) c'
                        | None => false
                        end) a.

(** Modelled from the spec: [moreThanOneItemChecked] of
    [../models/checklist], which is not under src/; the spec has it tell
    that a group has multiple boxes ticked. *)
Definition moreThanOneItemChecked (l : list ChecklistItem) : bool :=
  1 <? length (filter checked l).

Definition CHECKLIST_NAMESPACE : str := lit "autobot".

Module ChecklistKey.
Definition semver : str := lit "semver".
Definition skipRelease : str := lit "skipRelease".
(** [Object.values(ChecklistKey)] *)
Definition all : list str := [semver; skipRelease].
End ChecklistKey.

(** ** The event and the collaborators *)

(** What the feature reads of the webhook payload: [payload.action],
    [payload.pull_request.body], and [payload.changes.body.from] when
    [changes] and [changes.body] are there and [from] is a string. *)
Record PRContext := {
  action : str;
  pr_body : str;
  changes_body_from : option str
}.

(** The functions imported from other modules of the repository and the
    calls to the platform.  A call to the platform that mutates answers
    [None] when it succeeds and the rejection when it fails. *)
Class Collaborators := {
  Config : Type;
  LabelConfig : Type;
  Label : Type;
  PRLabel : Type;
  Release : Type;
  getConfig : PRContext -> Config;
  config_labels : Config -> str -> option LabelConfig;
  getLabelRelease : PRContext -> Config -> Release;
  hasReleaseLabels : Release -> bool;
  sentByThisApp : PRContext -> bool;
  listLabelsForRepo : PRContext -> list Label;
  getLabelsOnPR : PRContext -> list PRLabel;
  labelToString : PRLabel -> str;
  populateLabel : str -> option LabelConfig -> PRContext -> list Label -> Label;
  label_name : Label -> str;
  renderLabel : Label -> str;
  getSkipReleaseLabelsFromConfig : Config -> list LabelConfig;
  findLabelFromHash : str -> Config -> option str;
  hash : str -> str;
  createChecklist : str -> str -> list ChecklistItem -> str;
  parseChecklists : str -> str -> Checklists;
  sub : str -> str;
  bold : str -> str;
  italics : str -> str;
  addLabelsToPR : PRContext -> list str -> option rejection;
  removeLabelsFromPR : PRContext -> list str -> option rejection;
  pulls_update : PRContext -> str -> option rejection
}.

(** ** Calls and thrown values *)

Inductive event :=
| Populate (labelType : str)        (* [populateLabel], which may register a label *)
| AddLabels (names : list str)      (* [addLabelsToPR] *)
| RemoveLabels (names : list str)   (* [removeLabelsFromPR] *)
| UpdateBody (body : str)           (* [context.github.pulls.update] *)
| LogError (message : str) (cause : option rejection).  (* [logger.error] *)

Definition M (A : Type) : Type := list event * outcome A.

Definition ret {A} (a : A) : M A := ([], Return a).

Definition bind {A B} (m : M A) (f : A -> M B) : M B :=
  match snd m with
  | Return a => (fst m ++ fst (f a), snd (f a))
  | Throw e => (fst m, Throw e)
  end.

Definition emit (e : event) : M unit := ([e], Return tt).
Definition throw {A} (e : thrown) : M A := ([], Throw e).
Definition lift {A} (o : outcome A) : M A := ([], o).

(** [await to(call)]: the call is made and its failure is a value. *)
Definition attempt (e : event) (r : option rejection) : M (option rejection) :=
  ([e], Return r).

Declare Scope m_scope.
Delimit Scope m_scope with M.
Notation "x <- m ;; k" := (bind m (fun x => k))
  (at level 61, m at next level, right associativity) : m_scope.
Notation "m ;; k" := (bind m (fun _ => k))
  (at level 61, right associativity) : m_scope.

Definition trace {A} (m : M A) : list event := fst m.
Definition result {A} (m : M A) : outcome A := snd m.

(** ** The feature *)

Section Feature.
Context `{Collaborators}.
Local Open Scope m_scope.

Definition createAutoChecklist : str -> list ChecklistItem -> str :=
  createChecklist CHECKLIST_NAMESPACE.

Definition parseAutoChecklists (body : str) : Checklists :=
  parseChecklists body CHECKLIST_NAMESPACE.

Definition sectionHeader (text : str) (secondaryText : option str) : str :=
  sub (bold text ++
       (if truthy secondaryText
        then lit " " ++ italics (js_string secondaryText)
        else [])).

Definition semverHead : str :=
  sectionHeader (lit "Semver Labels") (Some (lit "(choose one at most)")).
Definition skipReleaseHead : str :=
  sectionHeader (lit "Skip Release Labels") None.

Definition section_raw : list str :=
  [ text [""; "    ##"; ""; "    "];
    text [""; "    "; "    "];
    text [""; "    "];
    text [""; "    "] ].

Definition section (header checklist : str) (warning : option str) : str :=
  dedent section_raw
    [ header;
      checklist;
      if truthy warning
      then [nl] ++ sub (lit ":warning: " ++ italics (bold (js_string warning)))
      else [] ].

(** The item built for one label in [createLabelChecklists]; [existing] is
    the checklist of the same key parsed from the body. *)
Definition checklistItemFor (useLabels : bool) (prLabels : list str)
    (existing : option Checklist) (label : Label) : ChecklistItem :=
  let labelId := hash (label_name label) in
  let checked0 :=
    match existing with
    | Some checklist =>
        if negb useLabels
        then match find (fun i => str_eqb (item_id i) labelId) (items checklist) with
             | Some checklistItem => checked checklistItem
             | None => false
             end
        else false
    | None => false
    end in
  let checked1 :=
    if useLabels then existsb (fun l => str_eqb l (label_name label)) prLabels
    else checked0 in
  {| item_id := labelId; checked := checked1; item_body := renderLabel label |}.

Definition semverTypes : list str := [lit "major"; lit "minor"; lit "patch"].

Fixpoint mapM {A B} (f : A -> M B) (l : list A) : M (list B) :=
  match l with
  | [] => ret []
  | a :: l' => b <- f a ;; bs <- mapM f l' ;; ret (b :: bs)
  end.

Definition prLabelsOf (context : PRContext) (useLabels : bool) : list str :=
  if useLabels then map labelToString (getLabelsOnPR context) else [].

Definition semverChecklistItems (context : PRContext) (config : Config)
    (useLabels : bool) : M (list ChecklistItem) :=
  let labels := listLabelsForRepo context in
  let prLabels := prLabelsOf context useLabels in
  let checklists := parseAutoChecklists (pr_body context) in
  mapM (fun labelType =>
          emit (Populate labelType) ;;
          let label := populateLabel labelType (config_labels config labelType)
                         context labels in
          ret (checklistItemFor useLabels prLabels
                 (property ChecklistKey.semver checklists) label))
       semverTypes.

Definition skipReleaseChecklistItems (context : PRContext) (config : Config)
    (useLabels : bool) : M (list ChecklistItem) :=
  let labels := listLabelsForRepo context in
  let prLabels := prLabelsOf context useLabels in
  let checklists := parseAutoChecklists (pr_body context) in
  mapM (fun labelConfig =>
          emit (Populate (lit "skip-release")) ;;
          let label := populateLabel (lit "skip-release") (Some labelConfig)
                         context labels in
          ret (checklistItemFor useLabels prLabels
                 (property ChecklistKey.skipRelease checklists) label))
       (getSkipReleaseLabelsFromConfig config).

Definition semverWarnings (l : list ChecklistItem) : option str :=
  if moreThanOneItemChecked l
  then Some (lit "At most one semver label should be selected") else None.

Definition skipReleaseWarnings (l : list ChecklistItem) : option str :=
  if moreThanOneItemChecked l
  then Some (lit "At most one skip release label should be selected") else None.

Definition createLabelChecklists (context : PRContext) (config : Config)
    (useLabels : bool) : M (list str) :=
  semverItems <- semverChecklistItems context config useLabels ;;
  let semverChecklist := createAutoChecklist ChecklistKey.semver semverItems in
  skipReleaseItems <- skipReleaseChecklistItems context config useLabels ;;
  let skipReleaseChecklist :=
    createAutoChecklist ChecklistKey.skipRelease skipReleaseItems in
  ret [ section semverHead semverChecklist (semverWarnings semverItems);
        section skipReleaseHead skipReleaseChecklist
          (skipReleaseWarnings skipReleaseItems) ].

(** [changes && changes.body && isString(changes.body.from) && !!body] *)
Definition didBodyChange (context : PRContext) : bool :=
  match changes_body_from context with
  | Some _ => match pr_body context with [] => false | _ :: _ => true end
  | None => false
  end.

(** [context.payload.changes!.body!.from], a property read on [undefined]
    when the chain is broken. *)
Definition previous_body (context : PRContext) : outcome str :=
  match changes_body_from context with
  | Some from => Return from
  | None => Throw TypeError
  end.

Definition getLabelTextFromChecklistItem (checklistItem : ChecklistItem)
    (config : Config) : option str :=
  findLabelFromHash (item_id checklistItem) config.

(** [.filter(label => !!label) as string[]] *)
Fixpoint keep_truthy (l : list (option str)) : list str :=
  match l with
  | [] => []
  | Some (c :: s) :: l' => (c :: s) :: keep_truthy l'
  | _ :: l' => keep_truthy l'
  end.

Record LabelChanges := {
  labelsToAdd : list str;
  labelsToRemove : list str
}.

(** The items of the checklists of the two keys, in property order. *)
Definition checklistItemsOf (checklists : Checklists) : list ChecklistItem :=
  concat
    (map items
       (filter (fun checklist =>
                  existsb (str_eqb (checklist_id checklist)) ChecklistKey.all)
          (values checklists))).

Definition labelChangesOf (checklists : Checklists) (config : Config)
    : LabelChanges :=
  let checklistItems := checklistItemsOf checklists in
  {| labelsToAdd :=
       keep_truthy
         (map (fun i => getLabelTextFromChecklistItem i config)
            (filter checked checklistItems));
     labelsToRemove :=
       keep_truthy
         (map (fun i => getLabelTextFromChecklistItem i config)
            (filter (fun i => negb (checked i)) checklistItems)) |}.

Definition getRequiredLabelChanges (body : str) (config : Config)
    : outcome LabelChanges :=
  match parseMessage body with
  | Throw e => Throw e
  | Return message => Return (labelChangesOf (parseAutoChecklists message) config)
  end.

Definition didMessageChange (context : PRContext) : outcome bool :=
  if negb (didBodyChange context) then Return false
  else
    match parseMessage (pr_body context) with
    | Throw e => Throw e
    | Return newMessage =>
        match previous_body context with
        | Throw e => Throw e
        | Return from =>
            match parseMessage from with
            | Throw e => Throw e
            | Return oldMessage => Return (negb (str_eqb newMessage oldMessage))
            end
        end
    end.

Definition didChecklistsChange (newMessage oldMessage : str) : bool :=
  negb (isEqual (parseAutoChecklists newMessage) (parseAutoChecklists oldMessage)).

Definition opened_raw : list str :=
  [ text [""; "      "];
    text [""; "      "; "      "];
    text [""; "    "] ].

Definition aggregated_message : str :=
  lit "Encountered issue after checklist edit, see log above for details".

Definition is_some {A} (o : option A) : bool :=
  match o with Some _ => true | None => false end.

(** [err && logger.error(message, err)] *)
Definition log_if (message : str) (err : option rejection) : M unit :=
  match err with
  | Some e => emit (LogError message (Some e))
  | None => ret tt
  end.

(** The branch "Just started on-boarding"; the update is not awaited. *)
Definition openedFlow (context : PRContext) (config : Config) : M unit :=
  sections <- createLabelChecklists context config false ;;
  let body :=
    dedent opened_raw
      [pr_body context; messageWrapper (onBoardingMessage sections)] in
  emit (UpdateBody body).

(** The branch "Updated after user changes". *)
Definition editedFlow (context : PRContext) (config : Config) : M unit :=
  if sentByThisApp context then ret tt
  else
    sections <- createLabelChecklists context config false ;;
    let newMessage := onBoardingMessage sections in
    body <- lift (overwriteMessage (pr_body context) newMessage) ;;
    from <- lift (previous_body context) ;;
    oldMessage <- lift (parseMessage from) ;;
    errs <-
      (if didChecklistsChange newMessage oldMessage
       then
         changes <- lift (getRequiredLabelChanges body config) ;;
         addLabelsError <-
           attempt (AddLabels (labelsToAdd changes))
             (addLabelsToPR context (labelsToAdd changes)) ;;
         removeLabelsError <-
           attempt (RemoveLabels (labelsToRemove changes))
             (removeLabelsFromPR context (labelsToRemove changes)) ;;
         ret (addLabelsError, removeLabelsError)
       else ret (None, None)) ;;
    let addLabelsError := fst errs in
    let removeLabelsError := snd errs in
    updateBodyError <- attempt (UpdateBody body) (pulls_update context body) ;;
    if is_some addLabelsError || is_some removeLabelsError
       || is_some updateBodyError
    then
      log_if (lit "Error when trying to add labels") addLabelsError ;;
      log_if (lit "Error when trying to remove labels") removeLabelsError ;;
      log_if (lit "Error when trying to update the body") updateBodyError ;;
      throw (Error aggregated_message)
    else ret tt.

(** The branch "When a label is added or removed". *)
Definition labeledFlow (context : PRContext) (config : Config) : M unit :=
  if sentByThisApp context then ret tt
  else
    sections <- createLabelChecklists context config true ;;
    let newMessage := onBoardingMessage sections in
    oldMessage <- lift (parseMessage (pr_body context)) ;;
    let checklistChanged := didChecklistsChange newMessage oldMessage in
    if checklistChanged
    then
      body <- lift (overwriteMessage (pr_body context) newMessage) ;;
      updateBodyError <- attempt (UpdateBody body) (pulls_update context body) ;;
      match updateBodyError with
      | Some e =>
          emit (LogError (lit "Failed to update body after label updates") None) ;;
          throw (Rejected e)
      | None => ret tt
      end
    else ret tt.

Definition is_action (context : PRContext) (name : string) : bool :=
  str_eqb (action context) (lit name).

(** The default export, applied to the application and to one event.  The
    calls to [logger.debug] are left out. *)
Definition handler (context : PRContext) : M unit :=
  let config := getConfig context in
  let release := getLabelRelease context config in
  let onBoarding :=
    negb (is_action context "opened") && isOnboarding (pr_body context) in
  if is_action context "opened" && negb (hasReleaseLabels release)
  then openedFlow context config
  else
    messageChanged <-
      (if onBoarding && is_action context "edited"
       then lift (didMessageChange context)
       else ret false) ;;
    if messageChanged
    then editedFlow context config
    else if onBoarding
            && (is_action context "labeled" || is_action context "unlabeled")
    then labeledFlow context config
    else ret tt.

End Feature.


(** ** Predicates used to state and prove the properties *)

(** The first code unit of [q], if any, does not occur in [p]. *)
Definition head_not_in (q : str) (p : str) : Prop :=
  match q with
  | [] => True
  | c :: _ => ~ In c p
  end.

(** [p] and [s] differ at a position that both have. *)
Fixpoint mismatch (p s : str) : bool :=
  match p, s with
  | a :: p', b :: s' => negb (char_eqb a b) || mismatch p' s'
  | _, _ => false
  end.

(** No occurrence of [sep] can begin inside [z], whatever follows [z]. *)
Fixpoint never_starts (sep z : str) : bool :=
  match z with
  | [] => true
  | _ :: z' => mismatch sep z && never_starts sep z'
  end.

(** [sep] occurs in [s]. *)
Definition occurs (sep s : str) : Prop := exists p q, s = p ++ sep ++ q.

(** The lines of the text that [messageWrapper] hands to dedent, around
    those of the body. *)
Definition wrapper_head : list str :=
  [ []; lit "    " ++ MessageStart ++ lit " "; lit "    ---"; [] ].

Definition wrapper_tail : list str :=
  [ []; lit generated_by; lit "    " ++ MessageEnd ++ lit " "; [] ].

(** What is left of four spaces once [m] are removed. *)
Definition pad (m : nat) : str := repeat space (4 - m).

Definition mid_head (m : nat) : list str :=
  [ [space]; pad m ++ lit "---"; [] ].

Definition mid_tail (m : nat) : list str :=
  [ [];
    pad m ++ lit "<sub>_Generated by [auto-it](https://github.com/apps/auto-it)_</sub>";
    pad m ].

(** The text between the two markers of a wrapped body, before the last
    replacement, when dedent removes [m] spaces. *)
Definition wrapper_mid (m : nat) (x : str) : str :=
  join [nl]
    (mid_head m ++ map (strip_line m) (split [nl] (lit "    " ++ x)) ++ mid_tail m).

(** The item is an item of a parsed checklist whose id is one of the two
    keys. *)
Definition listed (checklists : Checklists) (i : ChecklistItem) : Prop :=
  exists c,
    In c (values checklists)
    /\ (checklist_id c = ChecklistKey.semver
        \/ checklist_id c = ChecklistKey.skipRelease)
    /\ In i (items c).

(** The checklist holds an item of that id that is checked. *)
Definition ticked (c : Checklist) (id : str) : bool :=
  existsb (fun i => str_eqb (item_id i) id && checked i) (items c).


(** What [createLabelChecklists] computes and the calls it makes, in closed
    form. *)
Section Runs.
Context `{Collaborators}.

Definition populated (context : PRContext) (config : Config) (labelType : str)
    : Label :=
  populateLabel labelType (config_labels config labelType) context
    (listLabelsForRepo context).

Definition semverItemsOf (context : PRContext) (config : Config)
    (useLabels : bool) : list ChecklistItem :=
  map (fun labelType =>
         checklistItemFor useLabels (prLabelsOf context useLabels)
           (property ChecklistKey.semver (parseAutoChecklists (pr_body context)))
           (populated context config labelType))
      semverTypes.

Definition skipReleaseItemsOf (context : PRContext) (config : Config)
    (useLabels : bool) : list ChecklistItem :=
  map (fun labelConfig =>
         checklistItemFor useLabels (prLabelsOf context useLabels)
           (property ChecklistKey.skipRelease
              (parseAutoChecklists (pr_body context)))
           (populateLabel (lit "skip-release") (Some labelConfig) context
              (listLabelsForRepo context)))
      (getSkipReleaseLabelsFromConfig config).

Definition sectionsOf (context : PRContext) (config : Config)
    (useLabels : bool) : list str :=
  let semverItems := semverItemsOf context config useLabels in
  let skipReleaseItems := skipReleaseItemsOf context config useLabels in
  [ section semverHead (createAutoChecklist ChecklistKey.semver semverItems)
      (semverWarnings semverItems);
    section skipReleaseHead
      (createAutoChecklist ChecklistKey.skipRelease skipReleaseItems)
      (skipReleaseWarnings skipReleaseItems) ].

Definition populates (config : Config) : list event :=
  map Populate semverTypes
  ++ map (fun _ => Populate (lit "skip-release"))
       (getSkipReleaseLabelsFromConfig config).

(** The item resolves to the label name [n]. *)
Definition resolves (config : Config) (i : ChecklistItem) (n : str) : Prop :=
  findLabelFromHash (item_id i) config = Some n /\ n <> [].

End Runs.

(** A call that attaches or detaches a label. *)
Definition is_tag_mutation (e : event) : bool :=
  match e with
  | AddLabels _ | RemoveLabels _ => true
  | _ => false
  end.

(** A call that changes the pull request. *)
Definition is_mutation (e : event) : bool :=
  match e with
  | AddLabels _ | RemoveLabels _ | UpdateBody _ => true
  | _ => false
  end.

(** [logger.error] for a failure that happened. *)
Definition log_of (message : string) (err : option rejection) : list event :=
  match err with
  | Some e => [LogError (lit message) (Some e)]
  | None => []
  end.



(** ** Collaborators to run the feature on concrete events *)

Module Standin.

(** The answers of the platform and of the oracles for one event. *)
Record World := {
  sent_by_app : bool;
  has_release : bool;
  attached : list str;
  add_fails : option rejection;
  remove_fails : option rejection;
  update_fails : option rejection
}.

Definition names : list str :=
  [lit "major"; lit "minor"; lit "patch"; lit "skip-release"].

Definition fingerprint (name : str) : str := lit "h-" ++ name.

(** Modelled from the spec: [createChecklist] of [../models/checklist],
    which is not under src/.  The spec has each item become one selectable
    line tagged with its id in an HTML comment next to the visible text. *)
Definition render_item (namespace key : str) (i : ChecklistItem) : str :=
  lit "- [" ++ (if checked i then lit "x" else lit " ") ++ lit "] <!-- "
  ++ namespace ++ lit ":" ++ key ++ lit ":" ++ item_id i ++ lit " --> "
  ++ item_body i.

Definition render (namespace key : str) (l : list ChecklistItem) : str :=
  join [nl] (map (render_item namespace key) l).

Definition parse_line (namespace l : str) : option (str * ChecklistItem) :=
  let ticked :=
    if starts_with (lit "- [x] <!-- ") l then Some true
    else if starts_with (lit "- [ ] <!-- ") l then Some false
    else None in
  match ticked with
  | None => None
  | Some chk =>
      match cut (lit ":") (skipn 11 l) with
      | None => None
      | Some (ns, r1) =>
          if str_eqb ns namespace
          then match cut (lit ":") r1 with
               | None => None
               | Some (key, r2) =>
                   match cut (lit " --> ") r2 with
                   | None => None
                   | Some (i, b) =>
                       Some (key, {| item_id := i; checked := chk; item_body := b |})
                   end
               end
          else None
      end
  end.

Fixpoint add_item (key : str) (i : ChecklistItem) (o : Checklists) : Checklists :=
  match o with
  | [] => [(key, {| checklist_id := key; items := [i] |})]
  | (k, c) :: o' =>
      if str_eqb k key
      then (k, {| checklist_id := checklist_id c; items := items c ++ [i] |}) :: o'
      else (k, c) :: add_item key i o'
  end.

(** Modelled from the spec: [parseChecklists] of [../models/checklist],
    which is not under src/.  The spec has it read the checklists of one
    namespace, skip the lines that are not items, and answer the empty
    mapping when there is none. *)
Definition parse (body namespace : str) : Checklists :=
  fold_left
    (fun o l =>
       match parse_line namespace l with
       | Some (key, i) => add_item key i o
       | None => o
       end)
    (split [nl] body) [].

Definition collaborators (w : World) : Collaborators := {|
  Config := unit;
  LabelConfig := str;
  Label := str;
  PRLabel := str;
  Release := bool;
  getConfig := fun _ => tt;
  config_labels := fun _ _ => None;
  getLabelRelease := fun _ _ => has_release w;
  hasReleaseLabels := fun r => r;
  sentByThisApp := fun _ => sent_by_app w;
  listLabelsForRepo := fun _ => [];
  getLabelsOnPR := fun _ => attached w;
  labelToString := fun l => l;
  populateLabel := fun role cfg _ _ =>
                     match cfg with Some n => n | None => role end;
  label_name := fun l => l;
  renderLabel := fun l => l;
  getSkipReleaseLabelsFromConfig := fun _ => [lit "skip-release"];
  findLabelFromHash :=
    fun h _ => find (fun n => str_eqb (fingerprint n) h) names;
  hash := fingerprint;
  createChecklist := render;
  parseChecklists := parse;
  sub := fun s => lit "<sub>" ++ s ++ lit "</sub>";
  bold := fun s => lit "**" ++ s ++ lit "**";
  italics := fun s => lit "_" ++ s ++ lit "_";
  addLabelsToPR := fun _ _ => add_fails w;
  removeLabelsFromPR := fun _ _ => remove_fails w;
  pulls_update := fun _ _ => update_fails w
|}.

Definition quiet : World := {|
  sent_by_app := false;
  has_release := false;
  attached := [];
  add_fails := None;
  remove_fails := None;
  update_fails := None
|}.

Definition released : World := {|
  sent_by_app := false;
  has_release := true;
  attached := [lit "minor"];
  add_fails := None;
  remove_fails := None;
  update_fails := None
|}.

Definition self_sent : World := {|
  sent_by_app := true;
  has_release := false;
  attached := [];
  add_fails := None;
  remove_fails := None;
  update_fails := None
|}.

Definition minor_attached : World := {|
  sent_by_app := false;
  has_release := false;
  attached := [lit "minor"];
  add_fails := None;
  remove_fails := None;
  update_fails := None
|}.

(** An event on a pull request. *)
Definition on (name : string) (body : str) (from : option str) : PRContext :=
  {| action := lit name; pr_body := body; changes_body_from := from |}.

(** The body that the feature writes when a pull request described by
    "Fixes a bug" is opened. *)
Definition onboarded : str :=
  match trace (@handler (collaborators quiet) (on "opened" (lit "Fixes a bug") None)) with
  | [_; _; _; _; UpdateBody b] => b
  | _ => []
  end.

(** The user ticks the box of a semver label. *)
Definition tick (what : string) (body : str) : str :=
  match cut (lit "- [ ] <!-- autobot:semver:h-" ++ lit what) body with
  | Some (b, a) => b ++ lit "- [x] <!-- autobot:semver:h-" ++ lit what ++ a
  | None => body
  end.

(** A body whose checklists hold the same item under both keys, ticked
    under one and not under the other. *)
Definition twice_listed : str :=
  unlines
    [ lit "Fixes a bug";
      MessageStart;
      lit "- [x] <!-- autobot:semver:h-major --> major";
      lit "- [ ] <!-- autobot:skipRelease:h-major --> major";
      MessageEnd ].

(** The message embedded in a body that has one. *)
Definition message_of (body : str) : str :=
  match parseMessage body with
  | Return m => m
  | Throw _ => []
  end.

(** The flags of the items of the semver checklist read in a text. *)
Definition semver_flags (message : str) : list bool :=
  match property ChecklistKey.semver (parse message CHECKLIST_NAMESPACE) with
  | Some c => map checked (items c)
  | None => []
  end.

(** The semver checklist read in a text. *)
Definition semver_of (message : str) : Checklist :=
  match property ChecklistKey.semver (parse message CHECKLIST_NAMESPACE) with
  | Some c => c
  | None => {| checklist_id := []; items := [] |}
  end.

Definition item (name : string) (flag : bool) : ChecklistItem :=
  {| item_id := fingerprint (lit name); checked := flag; item_body := lit name |}.

Definition add_refused : World := {|
  sent_by_app := false;
  has_release := false;
  attached := [];
  add_fails := Some (lit "403 on labels");
  remove_fails := None;
  update_fails := None
|}.

Definition update_refused : World := {|
  sent_by_app := false;
  has_release := false;
  attached := [];
  add_fails := None;
  remove_fails := None;
  update_fails := Some (lit "502 on pulls")
|}.

(** The body of the last update of the description among some calls. *)
Fixpoint written (t : list event) : option str :=
  match t with
  | [] => None
  | UpdateBody b :: t' =>
      match written t' with
      | Some b' => Some b'
      | None => Some b
      end
  | _ :: t' => written t'
  end.

End Standin.

(** ** Predicates for the further properties *)

(** The line begins with white space. *)
Definition indented (l : str) : bool :=
  match l with
  | c :: _ => is_ws c
  | [] => false
  end.

(** No line of the text after the first begins with white space. *)
Definition flush (x : str) : bool :=
  forallb (fun l => negb (indented l)) (tl (split [nl] x)).

(** The text that [messageWrapper] puts between the start marker and the
    body, and between the body and the end marker. *)
Definition wrapper_open : str := text [" "; "---"; ""; ""].

Definition wrapper_close : str :=
  text [ ""; "";
         "<sub>_Generated by [auto-it](https://github.com/apps/auto-it)_</sub>";
         "" ].

(** The introduction of the on-boarding message, as rendered. *)
Definition logo_tag : str :=
  lit "<img align=" ++ quoted "left" ++ lit " width=" ++ quoted "60"
  ++ lit " src=" ++ quoted "https://autobot.auto-it.now.sh/public/logo.png"
  ++ lit "/>".

Definition onboarding_intro : str :=
  unlines
    [ logo_tag;
      [];
      lit "### Choose a release label";
      [];
      lit "This repository uses [auto](https://github.com/intuit/auto) to generate releases. In order to do that, ";
      lit "it needs an appropriate label assigned to each PR. Choose a label below that you feel best suites your changes.";
      [];
      [] ].

(** The lines of the template of [onBoardingMessage] before the sections. *)
Definition onboarding_head : list str :=
  [ [];
    logo_line;
    [];
    lit "    ### Choose a release label";
    [];
    lit "    This repository uses [auto](https://github.com/intuit/auto) to generate releases. In order to do that, ";
    lit "    it needs an appropriate label assigned to each PR. Choose a label below that you feel best suites your changes.";
    [] ].

(** The lines of the template of [section] before the header. *)
Definition section_head : list str := [ []; lit "    ##"; [] ].

(** The id of the checklist is one of the two keys. *)
Definition keyed (c : Checklist) : bool :=
  str_eqb (checklist_id c) ChecklistKey.semver
  || str_eqb (checklist_id c) ChecklistKey.skipRelease.

(** Case analysis on an item listed in a text read by the stand-in parser. *)
Ltac listed_cases H :=
  let c := fresh "c" in
  let Hc := fresh "Hc" in
  let Hi := fresh "Hi" in
  destruct H as (c & Hc & _ & Hi);
  vm_compute in Hc;
  repeat (destruct Hc as [Hc|Hc]; [subst c; vm_compute in Hi|]);
  try contradiction;
  repeat (destruct Hi as [Hi|Hi]; [symmetry in Hi|]);
  try contradiction.

(** * Facts about the strings *)

Lemma char_eqb_eq (a b : char) : char_eqb a b = true <-> a = b.
Proof. apply N.eqb_eq. Qed.

Lemma char_eqb_refl (a : char) : char_eqb a a = true.
Proof. apply N.eqb_refl. Qed.

Lemma char_eqb_neq (a b : char) : char_eqb a b = false <-> a <> b.
Proof. apply N.eqb_neq. Qed.

Lemma str_eqb_eq (a b : str) : str_eqb a b = true <-> a = b.
Proof.
  revert b; induction a as [|x a IH]; intros [|y b]; simpl; split;
    try congruence; try reflexivity.
  - intros E. apply andb_true_iff in E as [E1 E2].
    apply char_eqb_eq in E1. apply IH in E2. congruence.
  - intros E. injection E as -> ->. rewrite char_eqb_refl. now apply IH.
Qed.

Lemma str_eqb_refl (a : str) : str_eqb a a = true.
Proof. now apply str_eqb_eq. Qed.

Lemma starts_with_app (p s : str) : starts_with p (p ++ s) = true.
Proof. induction p as [|a p IH]; simpl; [reflexivity|]. now rewrite char_eqb_refl. Qed.

Lemma starts_with_spec (p s : str) :
  starts_with p s = true <-> exists r, s = p ++ r.
Proof.
  split.
  - revert s; induction p as [|a p IH]; intros s E.
    + now exists s.
    + destruct s as [|b s]; simpl in E; [discriminate|].
      apply andb_true_iff in E as [E1 E2]. apply char_eqb_eq in E1.
      destruct (IH _ E2) as [r ->]. exists r. now subst.
  - intros [r ->]. apply starts_with_app.
Qed.

Lemma skipn_length_app (p s : str) : skipn (length p) (p ++ s) = s.
Proof. induction p; simpl; auto. Qed.

Lemma cut_sound (sep s b a : str) :
  cut sep s = Some (b, a) -> s = b ++ sep ++ a.
Proof.
  revert b a; induction s as [|c s IH]; intros b a; simpl.
  - destruct (starts_with sep []) eqn:E; [|discriminate].
    intros [= <- <-]. apply starts_with_spec in E as [r E].
    destruct sep; [|discriminate]. simpl in *. now subst.
  - destruct (starts_with sep (c :: s)) eqn:E.
    + intros [= <- <-]. apply starts_with_spec in E as [r E].
      rewrite E, skipn_length_app. reflexivity.
    + destruct (cut sep s) as [[b' a']|]; [|discriminate].
      intros [= <- <-]. simpl. f_equal. now apply IH.
Qed.

Lemma cut_self (sep r : str) : cut sep (sep ++ r) = Some ([], r).
Proof.
  destruct (sep ++ r) eqn:E; simpl; rewrite <- E, starts_with_app, skipn_length_app;
    reflexivity.
Qed.

Lemma starts_with_app_l (p s q : str) :
  starts_with p s = true -> starts_with p (s ++ q) = true.
Proof.
  intros E. apply starts_with_spec in E as [r ->].
  rewrite <- app_assoc. apply starts_with_app.
Qed.

(** The first occurrence in a text is the first occurrence in the text
    followed by anything. *)
Lemma cut_app_l (sep s q b a : str) :
  cut sep s = Some (b, a) -> cut sep (s ++ q) = Some (b, a ++ q).
Proof.
  revert b a; induction s as [|c s IH]; intros b a; simpl.
  - destruct (starts_with sep []) eqn:E; [|discriminate].
    intros [= <- <-]. destruct sep; [|discriminate]. simpl.
    destruct q; reflexivity.
  - destruct (starts_with sep (c :: s)) eqn:E.
    + intros [= <- <-].
      change (c :: s ++ q) with ((c :: s) ++ q).
      rewrite (starts_with_app_l _ _ q E).
      apply starts_with_spec in E as [r E]. rewrite E.
      rewrite <- app_assoc, !skipn_length_app. reflexivity.
    + destruct (cut sep s) as [[b' a']|] eqn:C; [|discriminate].
      intros [= <- <-].
      destruct (starts_with sep (c :: s ++ q)) eqn:E'.
      * exfalso.
        (* an occurrence at the head of [c :: s ++ q] that is not one of
           [c :: s] is longer than [c :: s], which holds a whole one *)
        apply cut_sound in C. subst s.
        assert (F : forall (p x y : str),
                   starts_with p x = false ->
                   length p <= length x -> starts_with p (x ++ y) = false).
        { clear. induction p as [|u p IHp]; intros [|v x] y; simpl; try discriminate;
            try lia.
          destruct (char_eqb u v); simpl; [|reflexivity].
          intros E L. apply IHp; [assumption|lia]. }
        assert (X : starts_with sep ((c :: b' ++ sep ++ a') ++ q) = false).
        { apply F; [exact E|]. simpl. rewrite !length_app. lia. }
        simpl in X. congruence.
      * rewrite (IH _ _ eq_refl). reflexivity.
Qed.

(** An occurrence that begins in [x] and ends in [q :: y]. *)
Lemma starts_with_straddle (p x : str) (q : char) (y : str) :
  starts_with p (x ++ q :: y) = true -> starts_with p x = false -> In q p.
Proof.
  revert x; induction p as [|a p IH]; intros x; simpl; [discriminate|].
  destruct x as [|c x]; simpl.
  - intros E _. apply andb_true_iff in E as [E _]. apply char_eqb_eq in E. auto.
  - destruct (char_eqb a c); simpl; [|discriminate].
    intros E1 E2. right. eapply IH; eassumption.
Qed.

(** No occurrence in [s], and none across the end of [s]: the first
    occurrence in [s ++ q] is the first occurrence in [q]. *)
Lemma cut_none_app (sep s q : str) :
  cut sep s = None ->
  head_not_in q (tl sep) ->
  cut sep (s ++ q) =
  match cut sep q with
  | Some (b, a) => Some (s ++ b, a)
  | None => None
  end.
Proof.
  intros C Hq. induction s as [|c s IH]; simpl.
  - destruct (cut sep q) as [[b a]|]; reflexivity.
  - simpl in C. destruct (starts_with sep (c :: s)) eqn:E; [discriminate|].
    destruct (cut sep s) as [[b' a']|] eqn:C'; [discriminate|].
    destruct (starts_with sep (c :: s ++ q)) eqn:E'.
    + exfalso. destruct q as [|u q].
      * rewrite app_nil_r in E'. congruence.
      * destruct sep as [|h t]; [discriminate|]. simpl in E, E', Hq.
        destruct (char_eqb h c); simpl in *; [|discriminate].
        apply Hq. eapply starts_with_straddle; eassumption.
    + rewrite (IH eq_refl). destruct (cut sep q) as [[b a]|]; reflexivity.
Qed.

Lemma mismatch_starts (p s q : str) :
  mismatch p s = true -> starts_with p (s ++ q) = false.
Proof.
  revert s; induction p as [|a p IH]; intros [|b s]; simpl; try discriminate.
  destruct (char_eqb a b); simpl; auto.
Qed.

Lemma cut_never_starts (sep z q : str) :
  never_starts sep z = true ->
  cut sep (z ++ q) =
  match cut sep q with
  | Some (b, a) => Some (z ++ b, a)
  | None => None
  end.
Proof.
  induction z as [|c z IH]; simpl.
  - intros _. destruct (cut sep q) as [[b a]|]; reflexivity.
  - intros E. apply andb_true_iff in E as [E1 E2].
    change (c :: z ++ q) with ((c :: z) ++ q).
    rewrite (mismatch_starts _ _ q E1). simpl.
    rewrite (IH E2). destruct (cut sep q) as [[b a]|]; reflexivity.
Qed.

Lemma cut_length (sep s b a : str) :
  cut sep s = Some (b, a) -> length s = length b + length sep + length a.
Proof. intros C. apply cut_sound in C. subst. rewrite !length_app. lia. Qed.

Lemma cut_nil (sep : str) : sep <> [] -> cut sep [] = None.
Proof. destruct sep; [congruence|reflexivity]. Qed.

Lemma cut_complete (sep p q : str) : cut sep (p ++ sep ++ q) <> None.
Proof.
  induction p as [|c p IH].
  - simpl. rewrite cut_self. discriminate.
  - simpl. destruct (starts_with sep (c :: p ++ sep ++ q)); [discriminate|].
    destruct (cut sep (p ++ sep ++ q)) as [[b a]|]; [discriminate|congruence].
Qed.

Lemma includes_occurs (sep s : str) : includes sep s = true <-> occurs sep s.
Proof.
  unfold includes, occurs. split.
  - destruct (cut sep s) as [[b a]|] eqn:C; [|discriminate].
    intros _. exists b, a. now apply cut_sound.
  - intros (p & q & ->). pose proof (cut_complete sep p q).
    destruct (cut sep (p ++ sep ++ q)); congruence.
Qed.

Lemma includes_false_cut (sep s : str) : includes sep s = false <-> cut sep s = None.
Proof.
  unfold includes. destruct (cut sep s) as [[b a]|]; split; congruence.
Qed.

Lemma includes_false_occurs (sep s : str) : includes sep s = false <-> ~ occurs sep s.
Proof.
  rewrite <- includes_occurs. destruct (includes sep s); split; congruence.
Qed.

Lemma split_fuel_enough (sep : str) :
  sep <> [] ->
  forall n m s, length s <= n -> length s <= m ->
                split_fuel n sep s = split_fuel m sep s.
Proof.
  intros Hsep. induction n as [|n IH]; intros m s Hn Hm.
  - destruct s; [|simpl in Hn; lia].
    destruct m; cbn [split_fuel]; [reflexivity|]. now rewrite cut_nil.
  - destruct m as [|m].
    + destruct s; [|simpl in Hm; lia]. cbn [split_fuel]. now rewrite cut_nil.
    + cbn [split_fuel]. destruct (cut sep s) as [[b a]|] eqn:C; [|reflexivity].
      f_equal. apply cut_length in C.
      assert (0 < length sep) by (destruct sep; [congruence|simpl; lia]).
      apply IH; lia.
Qed.

(** The equation of [split]. *)
Lemma split_cut (sep s : str) :
  sep <> [] ->
  split sep s =
  match cut sep s with
  | None => [s]
  | Some (b, a) => b :: split sep a
  end.
Proof.
  intros Hsep. unfold split. destruct sep as [|h t]; [congruence|].
  destruct s as [|c s].
  - simpl. reflexivity.
  - cbn [length split_fuel].
    destruct (cut (h :: t) (c :: s)) as [[b a]|] eqn:C; [|reflexivity].
    f_equal. apply cut_length in C. simpl in C.
    apply split_fuel_enough; [assumption|lia|lia].
Qed.

Lemma split_hd (sep s : str) :
  sep <> [] -> exists h t, split sep s = h :: t.
Proof.
  intros Hsep. rewrite split_cut by assumption.
  destruct (cut sep s) as [[b a]|]; eauto.
Qed.

Lemma split_char_app (c : char) (a b : str) :
  split [c] (a ++ c :: b) = split [c] a ++ split [c] b.
Proof.
  remember (length a) as n eqn:Hn. revert a Hn.
  induction n as [n IH] using lt_wf_ind. intros a Hn.
  rewrite (split_cut [c] (a ++ c :: b)) by discriminate.
  rewrite (split_cut [c] a) by discriminate.
  destruct (cut [c] a) as [[p q]|] eqn:C.
  - rewrite (cut_app_l _ _ (c :: b) _ _ C). simpl. f_equal.
    apply cut_length in C. simpl in C. eapply IH; [|reflexivity]. lia.
  - rewrite (cut_none_app [c] a (c :: b) C) by (simpl; tauto).
    change (c :: b) with ([c] ++ b). rewrite cut_self.
    rewrite app_nil_r. reflexivity.
Qed.

Lemma join_cons2 (sep p q : str) (r : list str) :
  join sep (p :: q :: r) = p ++ sep ++ join sep (q :: r).
Proof. reflexivity. Qed.

Lemma join_app (sep : str) (l1 l2 : list str) :
  l1 <> [] -> l2 <> [] ->
  join sep (l1 ++ l2) = join sep l1 ++ sep ++ join sep l2.
Proof.
  intros H1 H2. induction l1 as [|p l1 IH]; [congruence|].
  destruct l1 as [|q l1].
  - destruct l2; [congruence|]. reflexivity.
  - change ((p :: q :: l1) ++ l2) with (p :: (q :: l1) ++ l2).
    simpl app. rewrite !join_cons2. rewrite <- app_assoc. f_equal.
    rewrite <- app_assoc. f_equal. apply IH. discriminate.
Qed.

Lemma join_split (sep s : str) : sep <> [] -> join sep (split sep s) = s.
Proof.
  intros Hsep. remember (length s) as n eqn:Hn. revert s Hn.
  induction n as [n IH] using lt_wf_ind. intros s Hn.
  rewrite split_cut by assumption.
  destruct (cut sep s) as [[b a]|] eqn:C; [|reflexivity].
  pose proof (cut_length _ _ _ _ C) as L. apply cut_sound in C.
  assert (0 < length sep) by (destruct sep; [congruence|simpl; lia]).
  destruct (split_hd sep a Hsep) as (h & t & E).
  assert (J : join sep (split sep a) = a) by (eapply IH; [|reflexivity]; lia).
  rewrite E in *. rewrite join_cons2, J. now subst.
Qed.

(** Every piece of a split is a part of the text. *)
Lemma split_In_part (sep s l : str) :
  sep <> [] -> In l (split sep s) -> exists p q, s = p ++ l ++ q.
Proof.
  intros Hsep. remember (length s) as n eqn:Hn. revert s Hn.
  induction n as [n IH] using lt_wf_ind. intros s Hn.
  rewrite split_cut by assumption.
  destruct (cut sep s) as [[b a]|] eqn:C.
  - pose proof (cut_length _ _ _ _ C) as L. apply cut_sound in C.
    assert (0 < length sep) by (destruct sep; [congruence|simpl; lia]).
    intros [<-|Hin].
    + exists [], (sep ++ a). now subst.
    + destruct (IH (length a) ltac:(lia) a eq_refl Hin) as (p & q & E).
      exists (b ++ sep ++ p), q. subst s. rewrite E.
      now rewrite <- !app_assoc.
  - intros [<-|[]]. exists [], []. now rewrite app_nil_r.
Qed.

(** ** Occurrences *)

Lemma occurs_app_l (k s q : str) : occurs k s -> occurs k (s ++ q).
Proof.
  intros (p & r & ->). exists p, (r ++ q). now rewrite <- !app_assoc.
Qed.

Lemma occurs_app_r (k s q : str) : occurs k s -> occurs k (q ++ s).
Proof.
  intros (p & r & ->). exists (q ++ p), r. now rewrite <- !app_assoc.
Qed.

Lemma occurs_part (k s l p q : str) : s = p ++ l ++ q -> occurs k l -> occurs k s.
Proof. intros -> O. apply occurs_app_r, occurs_app_l, O. Qed.

(** An occurrence in two texts joined by a code unit that the separator
    does not hold lies in one of them. *)
Lemma occurs_app_char (k l r : str) (c : char) :
  ~ In c k -> occurs k (l ++ c :: r) -> occurs k l \/ occurs k r.
Proof.
  intros Hc (p & q & E).
  apply app_eq_app in E as (m & [[E1 E2]|[E1 E2]]).
  - (* l = p ++ m and k ++ q = m ++ c :: r *)
    apply app_eq_app in E2 as (m' & [[E3 E4]|[E3 E4]]).
    + (* k = m ++ m' and c :: r = m' ++ q *)
      destruct m' as [|d m'].
      * left. exists p, []. rewrite app_nil_r in *. now subst.
      * exfalso. simpl in E4. injection E4 as <- _. apply Hc. subst k.
        apply in_or_app. right. now left.
    + left. exists p, m'. now subst.
  - (* p = l ++ m and c :: r = m ++ k ++ q *)
    destruct m as [|d m].
    + simpl in E2. destruct k as [|d k].
      * right. exists [], r. reflexivity.
      * exfalso. injection E2 as <- _. apply Hc. now left.
    + right. simpl in E2. injection E2 as _ ->. now exists m, q.
Qed.

Lemma occurs_join (k : str) (c : char) (ls : list str) :
  ~ In c k -> occurs k (join [c] ls) -> k = [] \/ exists l, In l ls /\ occurs k l.
Proof.
  intros Hc. induction ls as [|l ls IH].
  - simpl. intros (p & q & E). left.
    symmetry in E. apply app_eq_nil in E as [_ E]. now apply app_eq_nil in E as [E _].
  - destruct ls as [|l' ls].
    + simpl. intros O. right. exists l. auto.
    + rewrite join_cons2. simpl app. intros O.
      apply occurs_app_char in O as [O|O]; [| |assumption].
      * right. exists l. simpl. auto.
      * destruct (IH O) as [E|(x & Hx & Ox)]; [now left|].
        right. exists x. split; [now right|assumption].
Qed.

Lemma occurs_skipn (k l : str) (n : nat) : occurs k (skipn n l) -> occurs k l.
Proof.
  intros O. rewrite <- (firstn_skipn n l). now apply occurs_app_r.
Qed.

Lemma occurs_strip_line (k l : str) (m : nat) :
  occurs k (strip_line m l) -> occurs k l.
Proof.
  unfold strip_line. destruct l as [|c l]; [auto|].
  destruct (char_eqb c space); [apply occurs_skipn|auto].
Qed.

Lemma occurs_split (k sep s l : str) :
  sep <> [] -> In l (split sep s) -> occurs k l -> occurs k s.
Proof.
  intros Hsep Hin O. destruct (split_In_part sep s l Hsep Hin) as (p & q & E).
  eapply occurs_part; eassumption.
Qed.

Lemma occurs_never_starts (k z x : str) :
  never_starts k z = true -> occurs k (z ++ x) -> occurs k x.
Proof.
  intros N O. apply includes_occurs in O. apply includes_occurs.
  unfold includes in *. rewrite (cut_never_starts k z x N) in O.
  destruct (cut k x) as [[b a]|]; [reflexivity|discriminate].
Qed.

(** ** trim *)

Lemma trim_start_ws (w r : str) (c : char) :
  forallb is_ws w = true -> is_ws c = false -> trim_start (w ++ c :: r) = c :: r.
Proof.
  intros Hw Hc. induction w as [|a w IH]; simpl.
  - now rewrite Hc.
  - simpl in Hw. apply andb_true_iff in Hw as [H1 H2]. rewrite H1. auto.
Qed.

Lemma forallb_rev {A} (f : A -> bool) (l : list A) :
  forallb f (rev l) = forallb f l.
Proof.
  induction l as [|a l IH]; [reflexivity|].
  simpl. rewrite forallb_app, IH. simpl. rewrite andb_true_r. apply andb_comm.
Qed.

Lemma trim_end_ws (r w : str) (c : char) :
  forallb is_ws w = true -> is_ws c = false -> trim_end (r ++ c :: w) = r ++ [c].
Proof.
  intros Hw Hc. unfold trim_end.
  rewrite rev_app_distr. simpl rev. rewrite <- !app_assoc. simpl app.
  rewrite trim_start_ws by (rewrite ?forallb_rev; assumption).
  simpl rev. now rewrite rev_involutive.
Qed.

(** A text between two runs of white space, that begins and ends with
    something else, is what [trim] leaves. *)
Lemma trim_core (w1 w2 r : str) (c1 c2 : char) :
  forallb is_ws w1 = true -> forallb is_ws w2 = true ->
  is_ws c1 = false -> is_ws c2 = false ->
  trim (w1 ++ (c1 :: r ++ [c2]) ++ w2) = c1 :: r ++ [c2].
Proof.
  intros H1 H2 H3 H4. unfold trim.
  simpl app. rewrite trim_start_ws by assumption.
  change (c1 :: (r ++ [c2]) ++ w2) with ((c1 :: r ++ [c2]) ++ w2).
  replace ((c1 :: r ++ [c2]) ++ w2) with ((c1 :: r) ++ c2 :: w2)
    by (simpl; now rewrite <- app_assoc).
  rewrite trim_end_ws by assumption. reflexivity.
Qed.

(** ** The last replacement of dedent *)

Lemma expand_newlines_cons (c : char) (s : str) :
  c <> backslash -> expand_newlines (c :: s) = c :: expand_newlines s.
Proof.
  intros Hc. apply char_eqb_neq in Hc.
  destruct s as [|d s]; simpl; [reflexivity|]. now rewrite Hc.
Qed.

Lemma expand_newlines_app_l (p s : str) :
  ~ In backslash p -> expand_newlines (p ++ s) = p ++ expand_newlines s.
Proof.
  induction p as [|c p IH]; intros Hp; [reflexivity|].
  simpl app. rewrite expand_newlines_cons.
  - f_equal. apply IH. intros F. apply Hp. now right.
  - intros ->. apply Hp. now left.
Qed.

Lemma expand_newlines_ind (P : str -> str -> Prop) :
  P [] [] ->
  (forall c, P [c] [c]) ->
  (forall s, P s (expand_newlines s) ->
             P (backslash :: letter_n :: s) (nl :: expand_newlines s)) ->
  (forall c d s, (c <> backslash \/ d <> letter_n) ->
                 P (d :: s) (expand_newlines (d :: s)) ->
                 P (c :: d :: s) (c :: expand_newlines (d :: s))) ->
  forall s, P s (expand_newlines s).
Proof.
  intros H0 H1 H2 H3 s.
  remember (length s) as n eqn:Hn. revert s Hn.
  induction n as [n IH] using lt_wf_ind. intros s Hn.
  destruct s as [|c [|d s]]; [exact H0|apply H1|].
  cbn [expand_newlines].
  destruct (char_eqb c backslash) eqn:E1; destruct (char_eqb d letter_n) eqn:E2;
    cbn [andb].
  - apply char_eqb_eq in E1, E2. subst c d. apply H2.
    eapply IH; [|reflexivity]. subst n. simpl. lia.
  - apply H3; [right; now apply char_eqb_neq|].
    eapply IH; [|reflexivity]. subst n. simpl. lia.
  - apply H3; [left; now apply char_eqb_neq|].
    eapply IH; [|reflexivity]. subst n. simpl. lia.
  - apply H3; [left; now apply char_eqb_neq|].
    eapply IH; [|reflexivity]. subst n. simpl. lia.
Qed.

Lemma expand_newlines_app_r (s p : str) :
  ~ In backslash p -> head_not_in p [letter_n] ->
  expand_newlines (s ++ p) = expand_newlines s ++ p.
Proof.
  intros Hb Hn.
  assert (Hp : expand_newlines p = p).
  { rewrite <- (app_nil_r p) at 1. rewrite expand_newlines_app_l by assumption.
    simpl. apply app_nil_r. }
  pattern s, (expand_newlines s). apply expand_newlines_ind.
  - exact Hp.
  - intros c. destruct p as [|d p]; [reflexivity|].
    simpl app. cbn [expand_newlines].
    destruct (char_eqb c backslash && char_eqb d letter_n) eqn:E.
    + exfalso. apply andb_true_iff in E as [_ E]. apply char_eqb_eq in E.
      simpl in Hn. apply Hn. now left.
    + f_equal. exact Hp.
  - intros s' IH. simpl app. cbn [expand_newlines].
    rewrite !char_eqb_refl. cbn [andb]. simpl. f_equal. exact IH.
  - intros c d s' Hcd IH. simpl app. simpl app in IH. cbn [expand_newlines].
    replace (char_eqb c backslash && char_eqb d letter_n) with false.
    + simpl. f_equal. exact IH.
    + symmetry. apply andb_false_iff.
      destruct Hcd as [Hc|Hd]; [left|right]; now apply char_eqb_neq.
Qed.

(** An occurrence of a separator without line feed in the result of the
    replacement is an occurrence in its argument. *)
Lemma starts_with_expand (k s : str) :
  ~ In nl k -> starts_with k (expand_newlines s) = true -> starts_with k s = true.
Proof.
  revert s. induction k as [|a k IH]; intros s Hk; [reflexivity|].
  destruct s as [|c [|d s]]; [simpl; auto|simpl; auto|].
  cbn [expand_newlines].
  destruct (char_eqb c backslash && char_eqb d letter_n) eqn:E.
  - cbn [starts_with]. intros S. apply andb_true_iff in S as [S _].
    apply char_eqb_eq in S. exfalso. apply Hk. left. now rewrite S.
  - cbn [starts_with]. intros S. apply andb_true_iff in S as [S1 S2].
    rewrite S1. simpl. apply IH; [|exact S2]. intros F. apply Hk. now right.
Qed.

Lemma occurs_expand (k s : str) :
  ~ In nl k -> occurs k (expand_newlines s) -> occurs k s.
Proof.
  intros Hk. pattern s, (expand_newlines s). apply expand_newlines_ind.
  - auto.
  - auto.
  - intros s' IH (p & q & E). destruct p as [|c p].
    + destruct k as [|a k]; [exists [], (backslash :: letter_n :: s'); reflexivity|].
      simpl in E. injection E as E _. exfalso. apply Hk. left. now rewrite E.
    + simpl in E. injection E as _ E.
      apply (occurs_app_r k s' [backslash; letter_n]). apply IH. now exists p, q.
  - intros c d s' Hcd IH (p & q & E).
    assert (X : expand_newlines (c :: d :: s') = c :: expand_newlines (d :: s')).
    { cbn [expand_newlines].
      replace (char_eqb c backslash && char_eqb d letter_n) with false;
        [reflexivity|].
      symmetry. apply andb_false_iff.
      destruct Hcd; [left|right]; now apply char_eqb_neq. }
    destruct p as [|c' p].
    + apply includes_occurs. unfold includes.
      assert (S : starts_with k (c :: d :: s') = true).
      { apply starts_with_expand; [assumption|]. rewrite X.
        apply starts_with_spec. exists q. exact E. }
      cbn [cut]. rewrite S. reflexivity.
    + simpl in E. injection E as _ E.
      apply (occurs_app_r k (d :: s') [c]). apply IH. now exists p, q.
Qed.

(** ** The shape of a wrapped message *)

Lemma not_in_b (c : char) (l : str) : existsb (char_eqb c) l = false -> ~ In c l.
Proof.
  intros E F. assert (X : existsb (char_eqb c) l = true).
  { apply existsb_exists. exists c. split; [assumption|apply char_eqb_refl]. }
  congruence.
Qed.

Lemma indent_of_pos (l : str) (k : nat) : indent_of l = Some k -> 1 <= k.
Proof.
  unfold indent_of. destruct (0 <? ws_run l) eqn:E; simpl; [|discriminate].
  destruct (ws_run l <? length l); [|discriminate].
  intros [= <-]. apply Nat.ltb_lt in E. lia.
Qed.

Lemma mindent_step_bound (acc : option nat) (l : str) (k : nat) :
  indent_of l = Some k ->
  exists m, mindent_step acc l = Some m /\ 1 <= m <= k.
Proof.
  intros E. pose proof (indent_of_pos l k E). unfold mindent_step. rewrite E.
  destruct acc as [[|a]|].
  - exists k. split; [reflexivity|lia].
  - destruct (Nat.min_spec (S a) k) as [[? ->]|[? ->]]; eexists; split;
      try reflexivity; lia.
  - exists k. split; [reflexivity|lia].
Qed.

Lemma mindent_fold_le (ls : list str) (a : nat) :
  1 <= a ->
  exists m, fold_left mindent_step ls (Some a) = Some m /\ 1 <= m <= a.
Proof.
  revert a. induction ls as [|l ls IH]; intros a Ha; simpl.
  - exists a. split; [reflexivity|lia].
  - unfold mindent_step at 2. destruct (indent_of l) as [k|] eqn:E.
    + pose proof (indent_of_pos l k E).
      destruct a as [|a]; [lia|].
      destruct (IH (Nat.min (S a) k) ltac:(lia)) as (m & -> & Hm).
      exists m. split; [reflexivity|lia].
    + apply IH, Ha.
Qed.

(** One indented line bounds the indentation that dedent removes. *)
Lemma mindent_bound (ls : list str) (l : str) (k : nat) :
  In l ls -> indent_of l = Some k ->
  exists m, mindent_of ls = Some m /\ 1 <= m <= k.
Proof.
  unfold mindent_of. generalize (@None nat) as acc.
  induction ls as [|a ls IH]; intros acc [].
  - subst a. intros E. simpl.
    destruct (mindent_step_bound acc l k E) as (m & -> & Hm).
    destruct (mindent_fold_le ls m ltac:(lia)) as (m' & -> & Hm').
    exists m'. split; [reflexivity|lia].
  - intros E. simpl. now apply IH.
Qed.

Lemma wrapper_text (x : str) :
  interpolate messageWrapper_raw [MessageStart; x; MessageEnd] =
  join [nl] wrapper_head ++ nl :: (lit "    " ++ x) ++ nl :: join [nl] wrapper_tail.
Proof. vm_compute. reflexivity. Qed.

Lemma wrapper_lines (x : str) :
  split [nl] (interpolate messageWrapper_raw [MessageStart; x; MessageEnd]) =
  wrapper_head ++ split [nl] (lit "    " ++ x) ++ wrapper_tail.
Proof.
  rewrite wrapper_text, !split_char_app.
  assert (E1 : split [nl] (join [nl] wrapper_head) = wrapper_head)
    by (vm_compute; reflexivity).
  assert (E2 : split [nl] (join [nl] wrapper_tail) = wrapper_tail)
    by (vm_compute; reflexivity).
  now rewrite E1, E2.
Qed.

Lemma split_nl_not_nil (s : str) : split [nl] s <> [].
Proof.
  destruct (split_hd [nl] s ltac:(discriminate)) as (h & t & E).
  rewrite E. discriminate.
Qed.

Lemma wrapper_head_join (m : nat) :
  1 <= m <= 4 ->
  join [nl] (map (strip_line m) wrapper_head) =
  (nl :: pad m) ++ MessageStart ++ join [nl] (mid_head m).
Proof.
  intros Hm. destruct m as [|[|[|[|[|m]]]]]; try lia; vm_compute; reflexivity.
Qed.

Lemma wrapper_tail_join (m : nat) :
  1 <= m <= 4 ->
  join [nl] (map (strip_line m) wrapper_tail) =
  join [nl] (mid_tail m) ++ MessageEnd ++ [space; nl].
Proof.
  intros Hm. destruct m as [|[|[|[|[|m]]]]]; try lia; vm_compute; reflexivity.
Qed.

Lemma pad_ws (m : nat) : forallb is_ws (nl :: pad m) = true.
Proof.
  simpl. unfold pad. induction (4 - m) as [|n IH]; [reflexivity|]. exact IH.
Qed.

Lemma trim_markers (w1 w2 mid : str) :
  forallb is_ws w1 = true -> forallb is_ws w2 = true ->
  trim (w1 ++ (MessageStart ++ mid ++ MessageEnd) ++ w2) =
  MessageStart ++ mid ++ MessageEnd.
Proof.
  intros H1 H2.
  assert (G : forall s' e' : str,
             trim (w1 ++ ((60%N :: s') ++ mid ++ e' ++ [62%N]) ++ w2) =
             (60%N :: s') ++ mid ++ e' ++ [62%N]).
  { intros s' e'.
    replace ((60%N :: s') ++ mid ++ e' ++ [62%N])
      with (60%N :: (s' ++ mid ++ e') ++ [62%N])
      by (simpl; now rewrite <- !app_assoc).
    apply trim_core; auto. }
  exact (G (tl MessageStart) (removelast MessageEnd)).
Qed.

Lemma expand_newlines_markers (mid : str) :
  expand_newlines (MessageStart ++ mid ++ MessageEnd) =
  MessageStart ++ expand_newlines mid ++ MessageEnd.
Proof.
  rewrite expand_newlines_app_l by (apply not_in_b; reflexivity).
  rewrite expand_newlines_app_r;
    [reflexivity|apply not_in_b; reflexivity|apply not_in_b; reflexivity].
Qed.

(** A wrapped body is the start marker, a text, and the end marker. *)
Lemma messageWrapper_shape (x : str) :
  exists m, 1 <= m <= 4 /\
    messageWrapper x =
    MessageStart ++ expand_newlines (wrapper_mid m x) ++ MessageEnd.
Proof.
  destruct (mindent_bound
              (wrapper_head ++ split [nl] (lit "    " ++ x) ++ wrapper_tail)
              (lit "    " ++ MessageStart ++ lit " ") 4)
    as (m & Hm & Hb).
  { right. left. reflexivity. }
  { reflexivity. }
  exists m. split; [assumption|].
  unfold messageWrapper, dedent, strip_indentation.
  rewrite wrapper_lines, Hm, !map_app.
  rewrite join_app;
    [|discriminate
     |intros F; apply app_eq_nil in F as [F _]; apply map_eq_nil in F;
      now apply split_nl_not_nil in F].
  rewrite join_app;
    [|intros F; apply map_eq_nil in F; now apply split_nl_not_nil in F
     |discriminate].
  rewrite wrapper_head_join, wrapper_tail_join by assumption.
  unfold wrapper_mid.
  rewrite <- expand_newlines_markers. f_equal.
  rewrite <- (trim_markers (nl :: pad m) [space; nl]);
    [|apply pad_ws|reflexivity].
  f_equal.
  rewrite join_app;
    [|discriminate
     |intros F; apply app_eq_nil in F as [F _]; apply map_eq_nil in F;
      now apply split_nl_not_nil in F].
  rewrite join_app;
    [|intros F; apply map_eq_nil in F; now apply split_nl_not_nil in F
     |discriminate].
  rewrite <- !app_assoc. reflexivity.
Qed.

(** ** The markers in a body *)

Lemma marker_cases (k : str) (P : Prop) :
  k = MessageStart \/ k = MessageEnd ->
  (~ In nl k -> k <> [] -> never_starts k (lit "    ") = true ->
   head_not_in k (tl MessageStart) -> head_not_in k (tl MessageEnd) -> P) ->
  P.
Proof.
  intros [->| ->] HP; apply HP; try discriminate; try reflexivity;
    try (apply not_in_b; reflexivity).
Qed.

Lemma mid_lines_clean (k : str) (m : nat) :
  k = MessageStart \/ k = MessageEnd -> 1 <= m <= 4 ->
  forallb (fun l => negb (includes k l)) (mid_head m ++ mid_tail m) = true.
Proof.
  intros [->| ->] Hm; destruct m as [|[|[|[|[|m]]]]]; try lia; vm_compute; reflexivity.
Qed.

(** No marker in the body, no marker between the markers of the wrapped
    body. *)
Lemma wrapper_mid_clean (k : str) (m : nat) (x : str) :
  k = MessageStart \/ k = MessageEnd -> 1 <= m <= 4 ->
  includes k x = false ->
  includes k (expand_newlines (wrapper_mid m x)) = false.
Proof.
  intros Hk Hm Hx. apply includes_false_occurs. intros O.
  apply includes_false_occurs in Hx. apply Hx. clear Hx.
  apply (marker_cases k _ Hk). intros Hnl Hne Hsp _ _.
  apply occurs_expand in O; [|assumption].
  unfold wrapper_mid in O. apply occurs_join in O; [|assumption].
  destruct O as [E|(l & Hin & Ol)]; [contradiction|].
  pose proof (mid_lines_clean k m Hk Hm) as Hc.
  rewrite forallb_forall in Hc.
  apply in_app_or in Hin as [Hin|Hin];
    [|apply in_app_or in Hin as [Hin|Hin]].
  - exfalso. specialize (Hc l (in_or_app _ _ _ (or_introl Hin))).
    apply includes_occurs in Ol. rewrite Ol in Hc. discriminate.
  - apply in_map_iff in Hin as (l' & <- & Hin).
    apply occurs_strip_line in Ol.
    apply (occurs_never_starts k (lit "    ") x Hsp).
    eapply occurs_split; [|eassumption|eassumption]. discriminate.
  - exfalso. specialize (Hc l (in_or_app _ _ _ (or_intror Hin))).
    apply includes_occurs in Ol. rewrite Ol in Hc. discriminate.
Qed.

(** The first occurrence of a marker that occurs in nothing before it. *)
Lemma cut_marker (k a r : str) :
  k = MessageStart \/ k = MessageEnd ->
  includes k a = false -> cut k (a ++ k ++ r) = Some (a, r).
Proof.
  intros Hk Ha. apply includes_false_cut in Ha.
  rewrite (cut_none_app k a (k ++ r) Ha).
  - rewrite cut_self, app_nil_r. reflexivity.
  - destruct Hk as [->| ->]; apply not_in_b; reflexivity.
Qed.

(** No start marker in [a] nor in [b]: none in [a], the end marker, [b]. *)
Lemma no_start_around_end (a b : str) :
  includes MessageStart a = false -> includes MessageStart b = false ->
  includes MessageStart (a ++ MessageEnd ++ b) = false.
Proof.
  intros Ha Hb. apply includes_false_cut. apply includes_false_cut in Ha, Hb.
  rewrite (cut_none_app MessageStart a (MessageEnd ++ b) Ha)
    by (apply not_in_b; reflexivity).
  rewrite (cut_never_starts MessageStart MessageEnd b) by reflexivity.
  now rewrite Hb.
Qed.

Lemma split_marker (k a r : str) :
  k = MessageStart \/ k = MessageEnd ->
  includes k a = false -> split k (a ++ k ++ r) = a :: split k r.
Proof.
  intros Hk Ha. rewrite split_cut by (destruct Hk as [->| ->]; discriminate).
  now rewrite cut_marker.
Qed.

Lemma split_no_marker (k a : str) :
  k = MessageStart \/ k = MessageEnd ->
  includes k a = false -> split k a = [a].
Proof.
  intros Hk Ha. rewrite split_cut by (destruct Hk as [->| ->]; discriminate).
  apply includes_false_cut in Ha. now rewrite Ha.
Qed.

(** The first piece of a split does not depend on what follows a later
    occurrence of the marker. *)
Lemma split_first_piece (k s q : str) :
  k = MessageStart \/ k = MessageEnd ->
  nth_error (split k (s ++ k ++ q)) 0 = nth_error (split k s) 0.
Proof.
  intros Hk. assert (Hne : k <> []) by (destruct Hk as [->| ->]; discriminate).
  rewrite !split_cut by assumption.
  destruct (cut k s) as [[b a]|] eqn:C.
  - rewrite (cut_app_l k s (k ++ q) b a C). reflexivity.
  - rewrite cut_marker by (try assumption; now apply includes_false_cut).
    reflexivity.
Qed.

Lemma split_second_piece (k a b c : str) :
  k = MessageStart \/ k = MessageEnd ->
  nth_error (split k (a ++ k ++ b ++ k ++ c)) 1 =
  nth_error (split k (a ++ k ++ b)) 1.
Proof.
  intros Hk. assert (Hne : k <> []) by (destruct Hk as [->| ->]; discriminate).
  rewrite (split_cut k (a ++ k ++ b ++ k ++ c)), (split_cut k (a ++ k ++ b))
    by assumption.
  destruct (cut k a) as [[p r]|] eqn:C.
  - rewrite (cut_app_l k a (k ++ b ++ k ++ c) p r C).
    rewrite (cut_app_l k a (k ++ b) p r C).
    cbn [nth_error].
    replace (r ++ k ++ b ++ k ++ c) with ((r ++ k ++ b) ++ k ++ c)
      by now rewrite <- !app_assoc.
    apply split_first_piece, Hk.
  - rewrite !cut_marker by (try assumption; now apply includes_false_cut).
    cbn [nth_error]. apply split_first_piece, Hk.
Qed.

Lemma parseMessage_marked (a r : str) :
  includes MessageStart a = false ->
  includes MessageStart r = false ->
  includes MessageEnd r = false ->
  parseMessage (a ++ MessageStart ++ r) = Return r.
Proof.
  intros Ha Hr He. unfold parseMessage.
  rewrite split_marker, (split_no_marker MessageStart r) by auto.
  cbn [nth_error]. rewrite split_no_marker by auto. reflexivity.
Qed.

Lemma parseMessage_unmarked (body : str) :
  includes MessageStart body = false -> parseMessage body = Throw TypeError.
Proof.
  intros Hb. unfold parseMessage. rewrite split_no_marker by auto. reflexivity.
Qed.

(** A body that holds the start marker has a message, whatever follows. *)
Lemma parseMessage_returns (body : str) :
  includes MessageStart body = true -> exists m, parseMessage body = Return m.
Proof.
  intros Hb. unfold parseMessage, includes in *.
  rewrite split_cut by discriminate.
  destruct (cut MessageStart body) as [[b a]|]; [|discriminate].
  destruct (split_hd MessageStart a ltac:(discriminate)) as (h & t & ->).
  cbn [nth_error]. eauto.
Qed.

Lemma overwriteMessage_returns (body content : str) :
  includes MessageStart body = true ->
  exists body', overwriteMessage body content = Return body'.
Proof.
  intros Hb. unfold overwriteMessage, includes in *.
  rewrite split_cut by discriminate.
  destruct (cut MessageStart body) as [[b a]|]; [|discriminate].
  destruct (split_hd MessageStart a ltac:(discriminate)) as (h & t & ->).
  cbn [nth_error]. eauto.
Qed.

(** What [overwriteMessage] returns holds the start marker. *)
Lemma overwriteMessage_marked (body content body' : str) :
  overwriteMessage body content = Return body' ->
  includes MessageStart body' = true.
Proof.
  unfold overwriteMessage.
  destruct (nth_error (split MessageStart body) 1) as [s|]; [|discriminate].
  intros [= <-]. apply includes_occurs.
  destruct (messageWrapper_shape content) as (m & _ & ->).
  set (start := js_string (nth_error (split MessageStart body) 0)).
  set (end_ := js_string (nth_error (split MessageEnd s) 1)).
  exists start, (expand_newlines (wrapper_mid m content) ++ MessageEnd ++ end_).
  now rewrite <- !app_assoc.
Qed.

(** ** The body written when a pull request is opened *)

Lemma cut_char_none (c : char) (p : str) : ~ In c p -> cut [c] p = None.
Proof.
  induction p as [|a p IH]; intros Hc; [reflexivity|].
  cbn [cut starts_with].
  destruct (char_eqb c a) eqn:E.
  - apply char_eqb_eq in E. subst. exfalso. apply Hc. now left.
  - cbn [andb]. rewrite IH; [reflexivity|]. intros F. apply Hc. now right.
Qed.

Lemma split_prepend (c : char) (p s h : str) (t : list str) :
  ~ In c p -> split [c] s = h :: t -> split [c] (p ++ s) = (p ++ h) :: t.
Proof.
  intros Hc. rewrite !(split_cut [c]) by discriminate.
  rewrite (cut_none_app [c] p s (cut_char_none c p Hc))
    by (destruct s; simpl; tauto).
  destruct (cut [c] s) as [[b a]|]; intros [= <- <-]; reflexivity.
Qed.

Lemma includes_part (k s p l q : str) :
  s = p ++ l ++ q -> includes k s = false -> includes k l = false.
Proof.
  intros E Hs. apply includes_false_occurs. apply includes_false_occurs in Hs.
  intros O. apply Hs. eapply occurs_part; eassumption.
Qed.

Lemma strip_line_flush (m : nat) (l : str) :
  starts_with [space] l = false -> strip_line m l = l.
Proof.
  destruct l as [|d l]; [reflexivity|]. unfold strip_line. cbn [starts_with].
  rewrite andb_true_r. unfold char_eqb. rewrite N.eqb_sym. now intros ->.
Qed.

Lemma expand_newlines_eq (c d : char) (s : str) :
  expand_newlines (c :: d :: s) =
  if char_eqb c backslash && char_eqb d letter_n
  then nl :: expand_newlines s
  else c :: expand_newlines (d :: s).
Proof. reflexivity. Qed.

(** The last replacement leaves a text without a written-out backslash-n,
    followed by a line feed, as it is. *)
Lemma expand_newlines_clean (b r : str) :
  includes [backslash; letter_n] b = false ->
  expand_newlines (b ++ nl :: r) = b ++ nl :: expand_newlines r.
Proof.
  remember (length b) as n eqn:Hn. revert b Hn.
  induction n as [n IH] using lt_wf_ind. intros b Hn Hb.
  destruct b as [|c [|d b]].
  - simpl app. apply expand_newlines_cons. discriminate.
  - simpl app. rewrite expand_newlines_eq.
    replace (char_eqb nl letter_n) with false by reflexivity.
    rewrite andb_false_r. f_equal. apply expand_newlines_cons. discriminate.
  - simpl app. rewrite expand_newlines_eq.
    destruct (char_eqb c backslash && char_eqb d letter_n) eqn:E.
    + exfalso. apply andb_true_iff in E as [E1 E2].
      apply char_eqb_eq in E1, E2. subst c d.
      apply includes_false_occurs in Hb. apply Hb. now exists [], b.
    + f_equal. change (d :: b ++ nl :: r) with ((d :: b) ++ nl :: r).
      change (d :: b ++ nl :: expand_newlines r)
        with ((d :: b) ++ nl :: expand_newlines r).
      apply (IH (length (d :: b))); [subst n; simpl; lia|reflexivity|].
      apply (includes_part _ (c :: d :: b) [c] (d :: b) []); [|assumption].
      now rewrite app_nil_r.
Qed.

Lemma opened_text (b w : str) :
  interpolate opened_raw [b; w] =
  [] ++ nl :: (lit "      " ++ b) ++ nl :: lit "      " ++ nl
     :: (lit "      " ++ w) ++ nl :: lit "    ".
Proof. vm_compute. reflexivity. Qed.


(** * Facts about the handler *)

Section HandlerFacts.
Context `{Collaborators}.
Local Open Scope m_scope.

Lemma bind_return {A B} (t : list event) (a : A) (f : A -> M B) :
  bind (t, Return a) f = (t ++ trace (f a), result (f a)).
Proof. reflexivity. Qed.

Lemma mapM_emit {A B} (ev : A -> event) (g : A -> B) (l : list A) :
  mapM (fun a => emit (ev a) ;; ret (g a)) l = (map ev l, Return (map g l)).
Proof.
  induction l as [|a l IH]; [reflexivity|].
  cbn [mapM]. rewrite IH. unfold bind, emit, ret. simpl. now rewrite app_nil_r.
Qed.

Lemma createLabelChecklists_run (context : PRContext) (config : Config)
    (useLabels : bool) :
  createLabelChecklists context config useLabels =
  (populates config, Return (sectionsOf context config useLabels)).
Proof.
  unfold createLabelChecklists, semverChecklistItems, skipReleaseChecklistItems.
  rewrite !mapM_emit. rewrite bind_return. cbn [trace result fst snd].
  rewrite bind_return. cbn [trace result fst snd ret].
  rewrite app_nil_r. reflexivity.
Qed.

Lemma is_action_exclusive (context : PRContext) (a b : string) :
  is_action context a = true -> lit a <> lit b -> is_action context b = false.
Proof.
  unfold is_action. intros E N. apply str_eqb_eq in E.
  destruct (str_eqb (action context) (lit b)) eqn:F; [|reflexivity].
  apply str_eqb_eq in F. congruence.
Qed.

Lemma existsb_str_In (n : str) (l : list str) :
  existsb (fun x => str_eqb x n) l = true <-> In n l.
Proof.
  rewrite existsb_exists. split.
  - intros (x & Hx & E). apply str_eqb_eq in E. now subst.
  - intros Hn. exists n. split; [assumption|apply str_eqb_refl].
Qed.

End HandlerFacts.

(** * The properties *)

(** ** The envelope *)

(** C3, as amended.  Splicing a new content [y] into [A + wrap(x) + B]
    yields exactly [A + wrap(y) + B], every code unit of [A] and of [B]
    kept as it is, when the start marker occurs in none of [A], [x], [B]
    and the end marker in none of [x], [B]. *)
Theorem overwriteMessage_isolation (A B x y : str) :
  includes MessageStart A = false ->
  includes MessageStart x = false ->
  includes MessageEnd x = false ->
  includes MessageStart B = false ->
  includes MessageEnd B = false ->
  overwriteMessage (A ++ messageWrapper x ++ B) y =
  Return (A ++ messageWrapper y ++ B).
Proof.
  intros HA Hxs Hxe HBs HBe.
  destruct (messageWrapper_shape x) as (m & Hm & ->).
  pose proof (wrapper_mid_clean MessageStart m x (or_introl eq_refl) Hm Hxs) as Ms.
  pose proof (wrapper_mid_clean MessageEnd m x (or_intror eq_refl) Hm Hxe) as Me.
  set (mid := expand_newlines (wrapper_mid m x)) in *.
  unfold overwriteMessage.
  replace (A ++ (MessageStart ++ mid ++ MessageEnd) ++ B)
    with (A ++ MessageStart ++ (mid ++ MessageEnd ++ B))
    by now rewrite <- !app_assoc.
  rewrite split_marker by auto.
  rewrite (split_no_marker MessageStart (mid ++ MessageEnd ++ B))
    by (auto using no_start_around_end).
  cbn [nth_error].
  rewrite split_marker, (split_no_marker MessageEnd B) by auto.
  reflexivity.
Qed.

Lemma overwriteMessage_isolation_witness :
  overwriteMessage
    (lit "Fixes #12. " ++ messageWrapper (lit "- [ ] major") ++ lit " Thanks!")
    (lit "- [x] major") =
  Return (lit "Fixes #12. " ++ messageWrapper (lit "- [x] major") ++ lit " Thanks!").
Proof.
  apply (overwriteMessage_isolation (lit "Fixes #12. ") (lit " Thanks!")
           (lit "- [ ] major") (lit "- [x] major")); reflexivity.
Defined.

(** C3 as stated fails: a suffix that holds the end marker again is cut at
    that marker. *)
Lemma overwriteMessage_isolation_counterexample :
  overwriteMessage
    (lit "A" ++ messageWrapper (lit "x") ++ (lit "B" ++ MessageEnd ++ lit "C"))
    (lit "y") <>
  Return (lit "A" ++ messageWrapper (lit "y") ++ (lit "B" ++ MessageEnd ++ lit "C")).
Proof. vm_compute. discriminate. Qed.

(** C9, as amended.  The text after a second start marker has no part in
    the result of [overwriteMessage]: the result for [A START B START C]
    is the result for [A START B], whatever [C] is.  Around an envelope
    [START M END] followed by [E], with the start marker in none of [A],
    [M], [E] and the end marker in neither [M] nor [E], the text [A] and
    the text [E] are kept as they are, also when [A] holds end markers;
    the text after a second start marker and the text after a second end
    marker that follows the envelope are dropped: only [A] and [E] are
    kept. *)
Theorem overwriteMessage_drops_after_repeated_marker (A B C M E F y : str) :
  overwriteMessage (A ++ MessageStart ++ B ++ MessageStart ++ C) y =
  overwriteMessage (A ++ MessageStart ++ B) y
  /\ (includes MessageStart A = false ->
      includes MessageStart M = false ->
      includes MessageStart E = false ->
      includes MessageEnd M = false ->
      includes MessageEnd E = false ->
      overwriteMessage (A ++ MessageStart ++ M ++ MessageEnd ++ E) y =
      Return (A ++ messageWrapper y ++ E)
      /\ overwriteMessage
           (A ++ MessageStart ++ M ++ MessageEnd ++ E ++ MessageStart ++ C) y =
         Return (A ++ messageWrapper y ++ E)
      /\ (includes MessageStart F = false ->
          overwriteMessage
            (A ++ MessageStart ++ M ++ MessageEnd ++ E ++ MessageEnd ++ F) y =
          Return (A ++ messageWrapper y ++ E))).
Proof.
  assert (H1 : forall a b c,
             overwriteMessage (a ++ MessageStart ++ b ++ MessageStart ++ c) y =
             overwriteMessage (a ++ MessageStart ++ b) y).
  { intros a b c. unfold overwriteMessage.
    rewrite (split_second_piece MessageStart a b c) by auto.
    replace (a ++ MessageStart ++ b ++ MessageStart ++ c)
      with ((a ++ MessageStart ++ b) ++ MessageStart ++ c)
      by now rewrite <- !app_assoc.
    rewrite (split_first_piece MessageStart) by auto.
    reflexivity. }
  split; [apply H1|].
  intros HA HM HE HMe HEe.
  assert (H2 : overwriteMessage (A ++ MessageStart ++ M ++ MessageEnd ++ E) y =
               Return (A ++ messageWrapper y ++ E)).
  { unfold overwriteMessage.
    rewrite split_marker by auto.
    rewrite (split_no_marker MessageStart) by (auto using no_start_around_end).
    cbn [nth_error].
    rewrite split_marker, (split_no_marker MessageEnd E) by auto.
    reflexivity. }
  split; [exact H2|]. split.
  - replace (A ++ MessageStart ++ M ++ MessageEnd ++ E ++ MessageStart ++ C)
      with (A ++ MessageStart ++ (M ++ MessageEnd ++ E) ++ MessageStart ++ C)
      by now rewrite <- !app_assoc.
    rewrite H1. rewrite <- H2. rewrite <- ?app_assoc. reflexivity.
  - intros HF. unfold overwriteMessage.
    rewrite split_marker by auto.
    rewrite (split_no_marker MessageStart)
      by (auto using no_start_around_end).
    cbn [nth_error].
    rewrite split_marker by auto. cbn [nth_error].
    rewrite split_marker by auto. reflexivity.
Qed.

Lemma overwriteMessage_drops_after_repeated_marker_witness :
  overwriteMessage
    (lit "a" ++ MessageStart ++ lit "m" ++ MessageEnd ++ lit "e" ++ MessageStart
       ++ lit "c") (lit "y") =
  Return (lit "a" ++ messageWrapper (lit "y") ++ lit "e")
  /\ overwriteMessage
       (lit "a" ++ MessageStart ++ lit "m" ++ MessageEnd ++ lit "e" ++ MessageEnd
          ++ lit "f") (lit "y") =
     Return (lit "a" ++ messageWrapper (lit "y") ++ lit "e").
Proof.
  destruct (proj2 (overwriteMessage_drops_after_repeated_marker
                     (lit "a") [] (lit "c") (lit "m") (lit "e") (lit "f")
                     (lit "y")))
    as (_ & T1 & T2); try reflexivity.
  split; [exact T1|apply T2; reflexivity].
Defined.

(** C9 as stated fails in its last part: in a body whose prefix holds the
    end marker, that marker occurs twice, and [overwriteMessage] keeps
    every code unit of the text around the envelope. *)
Lemma overwriteMessage_drops_after_repeated_marker_counterexample :
  let A := lit "a" ++ MessageEnd ++ lit "b" in
  let body := A ++ MessageStart ++ lit "m" ++ MessageEnd ++ lit "e" in
  split MessageEnd body = [lit "a"; lit "b" ++ MessageStart ++ lit "m"; lit "e"]
  /\ overwriteMessage body (lit "y")
     = Return (A ++ messageWrapper (lit "y") ++ lit "e").
Proof. vm_compute. auto. Qed.

(** ** The handler *)

Lemma editedFlow_self `{Collaborators} (context : PRContext) (config : Config) :
  sentByThisApp context = true -> editedFlow context config = ret tt.
Proof. intros E. unfold editedFlow. now rewrite E. Qed.

Lemma labeledFlow_self `{Collaborators} (context : PRContext) (config : Config) :
  sentByThisApp context = true -> labeledFlow context config = ret tt.
Proof. intros E. unfold labeledFlow. now rewrite E. Qed.

Lemma not_opened `{Collaborators} (context : PRContext) :
  (is_action context "edited" || is_action context "labeled"
   || is_action context "unlabeled") = true ->
  is_action context "opened" = false.
Proof.
  intros E. apply orb_true_iff in E as [E|E]; [apply orb_true_iff in E as [E|E]|];
    apply (is_action_exclusive context _ "opened" E); discriminate.
Qed.

(** C7.  An [opened] event on a pull request that already carries a release
    label: nothing is written and no call is made. *)
Theorem opened_with_release_label_is_skipped `{Collaborators}
    (context : PRContext) :
  is_action context "opened" = true ->
  hasReleaseLabels (getLabelRelease context (getConfig context)) = true ->
  handler context = ([], Return tt).
Proof.
  intros Ha Hr. unfold handler. rewrite Ha, Hr. reflexivity.
Qed.

Lemma opened_with_release_label_is_skipped_witness :
  @handler (Standin.collaborators Standin.released)
    (Standin.on "opened" (lit "Fixes a bug") None) = ([], Return tt).
Proof.
  apply (@opened_with_release_label_is_skipped
           (Standin.collaborators Standin.released)); reflexivity.
Defined.

(** C4.  An [edited], [labeled] or [unlabeled] event whose last actor is the
    application itself: the handler makes no call at all, whatever else
    changed. *)
Theorem self_authored_event_is_ignored `{Collaborators} (context : PRContext) :
  (is_action context "edited" || is_action context "labeled"
   || is_action context "unlabeled") = true ->
  sentByThisApp context = true ->
  trace (handler context) = [].
Proof.
  intros Ha Hs. unfold handler.
  rewrite (not_opened context Ha). cbn [andb negb].
  destruct (isOnboarding (pr_body context) && is_action context "edited").
  - unfold lift. destruct (didMessageChange context) as [[|]|e]; cbn [bind].
    + cbn [fst snd]. now rewrite editedFlow_self.
    + cbn [fst snd].
      destruct (isOnboarding (pr_body context)
                && (is_action context "labeled" || is_action context "unlabeled"));
        [now rewrite labeledFlow_self|reflexivity].
    + reflexivity.
  - cbn [ret bind fst snd].
    destruct (isOnboarding (pr_body context)
              && (is_action context "labeled" || is_action context "unlabeled"));
      [now rewrite labeledFlow_self|reflexivity].
Qed.

Lemma self_authored_event_is_ignored_witness :
  trace (@handler (Standin.collaborators Standin.self_sent)
           (Standin.on "labeled" Standin.onboarded None)) = [].
Proof.
  apply (@self_authored_event_is_ignored
           (Standin.collaborators Standin.self_sent)); reflexivity.
Defined.

Lemma populates_no_tag `{Collaborators} (config : Config) :
  forallb (fun e => negb (is_tag_mutation e)) (populates config) = true.
Proof.
  unfold populates. rewrite forallb_app. apply andb_true_iff. split.
  - reflexivity.
  - induction (getSkipReleaseLabelsFromConfig config); simpl; auto.
Qed.

(** With the labels attached to the pull request as the source, one
    semver label attached and the two others not, the semver items are
    checked by the attached label alone and raise no warning. *)
Lemma semver_items_of_attached `{Collaborators} (context : PRContext)
    (attachedType : str) :
  let config := getConfig context in
  let name := fun t => label_name (populated context config t) in
  let attached := map labelToString (getLabelsOnPR context) in
  let semverItems :=
    map (fun t => {| item_id := hash (name t);
                     checked := str_eqb t attachedType;
                     item_body := renderLabel (populated context config t) |})
      semverTypes in
  In attachedType semverTypes ->
  In (name attachedType) attached ->
  (forall t, In t semverTypes -> t <> attachedType -> ~ In (name t) attached) ->
  semverItemsOf context config true = semverItems
  /\ semverWarnings semverItems = None.
Proof.
  intros config name attached semverItems Hin Hatt Hothers. split.
  - unfold semverItemsOf, semverItems. apply map_ext_in. intros t Ht.
    unfold checklistItemFor. cbn [negb].
    assert (E : existsb (fun l => str_eqb l (label_name (populated context config t)))
                  (prLabelsOf context true) = str_eqb t attachedType).
    { destruct (str_eqb t attachedType) eqn:Et.
      - apply str_eqb_eq in Et. subst t. now apply existsb_str_In.
      - destruct (existsb _ _) eqn:Ex; [|reflexivity].
        apply existsb_str_In in Ex. exfalso.
        apply (Hothers t Ht); [|exact Ex].
        intros ->. now rewrite str_eqb_refl in Et. }
    destruct (property ChecklistKey.semver (parseAutoChecklists (pr_body context)));
      now rewrite E.
  - unfold semverItems. destruct Hin as [<-|[<-|[<-|[]]]]; reflexivity.
Qed.

Lemma skipRelease_items_of_attached `{Collaborators} (context : PRContext)
    (config : Config) :
  skipReleaseItemsOf context config true =
  map (fun labelConfig =>
         let label :=
           populateLabel (lit "skip-release") (Some labelConfig) context
             (listLabelsForRepo context) in
         {| item_id := hash (label_name label);
            checked :=
              existsb (fun l => str_eqb l (label_name label))
                (map labelToString (getLabelsOnPR context));
            item_body := renderLabel label |})
      (getSkipReleaseLabelsFromConfig config).
Proof.
  unfold skipReleaseItemsOf. apply map_ext. intros labelConfig.
  unfold checklistItemFor, prLabelsOf. cbn [negb].
  destruct (property ChecklistKey.skipRelease
              (parseAutoChecklists (pr_body context))); reflexivity.
Qed.

(** What the handler does on the branch of the label events. *)
Lemma labeled_run `{Collaborators} (context : PRContext) (oldMessage body : str) :
  let config := getConfig context in
  let newMessage := onBoardingMessage (sectionsOf context config true) in
  (is_action context "labeled" || is_action context "unlabeled") = true ->
  isOnboarding (pr_body context) = true ->
  sentByThisApp context = false ->
  parseMessage (pr_body context) = Return oldMessage ->
  overwriteMessage (pr_body context) newMessage = Return body ->
  handler context =
  if didChecklistsChange newMessage oldMessage
  then match pulls_update context body with
       | None => (populates config ++ [UpdateBody body], Return tt)
       | Some e =>
           (populates config
            ++ [ UpdateBody body;
                 LogError (lit "Failed to update body after label updates")
                   None ],
            Throw (Rejected e))
       end
  else (populates config, Return tt).
Proof.
  intros config newMessage Ha Ho Hs Hold Hb.
  assert (Hop : is_action context "opened" = false).
  { apply orb_true_iff in Ha as [E|E];
      apply (is_action_exclusive context _ "opened" E); discriminate. }
  assert (Hed : is_action context "edited" = false).
  { apply orb_true_iff in Ha as [E|E];
      apply (is_action_exclusive context _ "edited" E); discriminate. }
  unfold handler. rewrite Hop, Hed, Ho, Ha. cbn [andb negb].
  cbn [ret bind fst snd app]. unfold labeledFlow. rewrite Hs. fold config.
  rewrite createLabelChecklists_run. unfold lift, attempt, emit, throw, ret.
  cbn [bind fst snd]. fold newMessage. rewrite Hold. cbn [bind fst snd].
  destruct (didChecklistsChange newMessage oldMessage).
  - rewrite Hb. cbn [bind fst snd].
    destruct (pulls_update context body); cbn [bind fst snd];
      rewrite <- ?app_assoc; cbn [app]; rewrite ?app_nil_r; reflexivity.
  - cbn [bind fst snd]. rewrite ?app_nil_r. reflexivity.
Qed.

(** C6.  A [labeled] or [unlabeled] event on an on-boarded pull request,
    not sent by the application, with exactly one of the three semver
    labels attached.  The message that the handler renders holds the
    semver checklist with the item of that label checked and the other two
    unchecked, without warning, and the skip-release checklist with the
    items of the attached labels checked, whatever the checklists of the
    body hold.  The handler writes that message into the body when its
    checklists differ from those of the embedded message, and makes no
    other call after the labels are populated: it attaches and detaches no
    label. *)
Theorem labeled_checklist_follows_attached_labels `{Collaborators}
    (context : PRContext) (attachedType : str) :
  let config := getConfig context in
  let name := fun t => label_name (populated context config t) in
  let attached := map labelToString (getLabelsOnPR context) in
  let semverItems :=
    map (fun t => {| item_id := hash (name t);
                     checked := str_eqb t attachedType;
                     item_body := renderLabel (populated context config t) |})
      semverTypes in
  let skipReleaseItems :=
    map (fun labelConfig =>
           let label :=
             populateLabel (lit "skip-release") (Some labelConfig) context
               (listLabelsForRepo context) in
           {| item_id := hash (label_name label);
              checked := existsb (fun l => str_eqb l (label_name label)) attached;
              item_body := renderLabel label |})
      (getSkipReleaseLabelsFromConfig config) in
  let newMessage :=
    onBoardingMessage
      [ section semverHead
          (createAutoChecklist ChecklistKey.semver semverItems) None;
        section skipReleaseHead
          (createAutoChecklist ChecklistKey.skipRelease skipReleaseItems)
          (skipReleaseWarnings skipReleaseItems) ] in
  (is_action context "labeled" || is_action context "unlabeled") = true ->
  isOnboarding (pr_body context) = true ->
  sentByThisApp context = false ->
  In attachedType semverTypes ->
  In (name attachedType) attached ->
  (forall t, In t semverTypes -> t <> attachedType -> ~ In (name t) attached) ->
  exists oldMessage body,
    parseMessage (pr_body context) = Return oldMessage
    /\ overwriteMessage (pr_body context) newMessage = Return body
    /\ handler context =
       (if didChecklistsChange newMessage oldMessage
        then match pulls_update context body with
             | None => (populates config ++ [UpdateBody body], Return tt)
             | Some e =>
                 (populates config
                  ++ [ UpdateBody body;
                       LogError (lit "Failed to update body after label updates")
                         None ],
                  Throw (Rejected e))
             end
        else (populates config, Return tt))
    /\ forallb (fun e => negb (is_tag_mutation e)) (trace (handler context)) = true.
Proof.
  intros config name attached semverItems skipReleaseItems newMessage
    Ha Ho Hs Hin Hatt Hothers.
  destruct (semver_items_of_attached context attachedType Hin Hatt Hothers)
    as [Hitems Hwarn].
  fold config name semverItems in Hitems, Hwarn.
  assert (Hnew : onBoardingMessage (sectionsOf context config true) = newMessage).
  { unfold sectionsOf. rewrite Hitems, Hwarn, skipRelease_items_of_attached.
    reflexivity. }
  destruct (parseMessage_returns (pr_body context) Ho) as (old & Hold).
  destruct (overwriteMessage_returns (pr_body context) newMessage Ho)
    as (body & Hb).
  exists old, body. split; [exact Hold|]. split; [exact Hb|].
  assert (Hh : handler context =
               if didChecklistsChange newMessage old
               then match pulls_update context body with
                    | None => (populates config ++ [UpdateBody body], Return tt)
                    | Some e =>
                        (populates config
                         ++ [ UpdateBody body;
                              LogError
                                (lit "Failed to update body after label updates")
                                None ],
                         Throw (Rejected e))
                    end
               else (populates config, Return tt)).
  { rewrite <- Hnew in Hb |- *.
    exact (labeled_run context old body Ha Ho Hs Hold Hb). }
  split; [exact Hh|].
  rewrite Hh.
  destruct (didChecklistsChange newMessage old);
    [destruct (pulls_update context body)|];
    cbn [trace fst]; rewrite ?forallb_app, populates_no_tag; reflexivity.
Qed.

Lemma labeled_checklist_follows_attached_labels_witness :
  let previous :=
    unlines [ lit "Fixes a bug"; MessageStart;
              lit "- [x] <!-- autobot:semver:h-major --> major"; MessageEnd ] in
  exists body,
    trace (@handler (Standin.collaborators Standin.minor_attached)
             (Standin.on "labeled" previous None))
    = @populates (Standin.collaborators Standin.minor_attached) tt
      ++ [UpdateBody body]
    /\ Standin.semver_flags (Standin.message_of previous) = [true]
    /\ Standin.semver_flags (Standin.message_of body) = [false; true; false].
Proof.
  intros previous.
  destruct (@labeled_checklist_follows_attached_labels
              (Standin.collaborators Standin.minor_attached)
              (Standin.on "labeled" previous None) (lit "minor"))
    as (old & body & Hold & Hb & Hh & _).
  - reflexivity.
  - vm_compute. reflexivity.
  - reflexivity.
  - right. left. reflexivity.
  - left. reflexivity.
  - intros t [<-|[<-|[<-|[]]]] Hn [E|[]]; try discriminate. now apply Hn.
  - vm_compute in Hold. injection Hold as <-.
    vm_compute in Hb. injection Hb as <-.
    match type of Hh with
    | context [UpdateBody ?b] => exists b
    end.
    split; [rewrite Hh; vm_compute; reflexivity|].
    split; vm_compute; reflexivity.
Defined.

(** ** The label changes *)

Lemma keep_truthy_In (n : str) (l : list (option str)) :
  In n (keep_truthy l) <-> In (Some n) l /\ n <> [].
Proof.
  induction l as [|[[|c s]|] l IH]; simpl.
  - tauto.
  - rewrite IH. split; [tauto|]. intros [[E|E] N]; [congruence|tauto].
  - rewrite IH. split.
    + intros [<-|[E N]]; [split; [now left|discriminate]|tauto].
    + intros [[E|E] N]; [left; congruence|tauto].
  - rewrite IH. split; [tauto|]. intros [[E|E] N]; [discriminate|tauto].
Qed.

Lemma labels_In `{Collaborators} (config : Config) (keep : ChecklistItem -> bool)
    (l : list ChecklistItem) (n : str) :
  In n (keep_truthy
          (map (fun i => getLabelTextFromChecklistItem i config) (filter keep l)))
  <-> exists i, In i l /\ keep i = true /\ resolves config i n.
Proof.
  rewrite keep_truthy_In, in_map_iff. unfold resolves, getLabelTextFromChecklistItem.
  split.
  - intros [(i & E & Hi) N]. apply filter_In in Hi as [Hi Hk]. eauto.
  - intros (i & Hi & Hk & E & N). split; [|assumption].
    exists i. split; [assumption|]. apply filter_In. auto.
Qed.

Lemma getRequiredLabelChanges_run `{Collaborators} (body message : str)
    (config : Config) :
  parseMessage body = Return message ->
  getRequiredLabelChanges body config =
  Return (labelChangesOf (parseAutoChecklists message) config).
Proof. intros E. unfold getRequiredLabelChanges. now rewrite E. Qed.

(** The two lists of [labelChangesOf], by membership. *)
Lemma labelChangesOf_In `{Collaborators} (checklists : Checklists)
    (config : Config) (n : str) :
  (In n (labelsToAdd (labelChangesOf checklists config)) <->
   exists i, In i (checklistItemsOf checklists)
             /\ checked i = true /\ resolves config i n)
  /\ (In n (labelsToRemove (labelChangesOf checklists config)) <->
      exists i, In i (checklistItemsOf checklists)
                /\ checked i = false /\ resolves config i n).
Proof.
  split.
  - apply labels_In.
  - unfold labelChangesOf, labelsToRemove. rewrite labels_In.
    split; intros (i & Hi & Hk & R); exists i; (split; [exact Hi|split; [|exact R]]).
    + now apply negb_true_iff.
    + now apply negb_true_iff.
Qed.

(** The items that [getRequiredLabelChanges] goes through are the items
    of the parsed checklists of the two keys. *)
Lemma checklistItemsOf_listed (checklists : Checklists) (i : ChecklistItem) :
  In i (checklistItemsOf checklists) <-> listed checklists i.
Proof.
  unfold checklistItemsOf, listed. rewrite in_concat. split.
  - intros (l & Hl & Hi). apply in_map_iff in Hl as (c & <- & Hc).
    apply filter_In in Hc as [Hc Hk]. exists c.
    split; [exact Hc|]. split; [|exact Hi].
    cbn [existsb ChecklistKey.all] in Hk. rewrite orb_false_r in Hk.
    apply orb_true_iff in Hk as [E|E]; apply str_eqb_eq in E; auto.
  - intros (c & Hc & Hk & Hi). exists (items c). split; [|exact Hi].
    apply in_map, filter_In. split; [exact Hc|].
    destruct Hk as [E|E]; rewrite E; reflexivity.
Qed.

Lemma labelChangesOf_listed `{Collaborators} (checklists : Checklists)
    (config : Config) (flag : bool) (n : str) :
  In n ((if flag then labelsToAdd else labelsToRemove)
          (labelChangesOf checklists config))
  <-> exists i, listed checklists i /\ checked i = flag /\ resolves config i n.
Proof.
  destruct (labelChangesOf_In checklists config n) as [Ha Hr].
  destruct flag; [rewrite Ha|rewrite Hr];
    split; intros (i & Hi & R); exists i; (split; [|exact R]);
    now apply checklistItemsOf_listed.
Qed.

(** C10, as amended.  On a body without the start marker
    [getRequiredLabelChanges] throws.  On a body with the start marker it
    returns, and splits by their flag the items of the checklists parsed
    from the message whose key is semver or skipRelease: a label name is to
    be added exactly when a checked item of these resolves to it, and to be
    removed exactly when an unchecked item of these resolves to it, so that
    an item that resolves to no label, and an item of a checklist of another
    key, is in neither list.  The two lists are disjoint when items of
    distinct ids resolve to distinct names and no id is listed both checked
    and unchecked. *)
Theorem label_changes_partition `{Collaborators} (body : str) (config : Config) :
  (isOnboarding body = false ->
   getRequiredLabelChanges body config = Throw TypeError)
  /\ (isOnboarding body = true ->
      exists message changes,
        parseMessage body = Return message
        /\ getRequiredLabelChanges body config = Return changes
        /\ let parsed := parseAutoChecklists message in
           (forall n, In n (labelsToAdd changes) <->
                      exists i, listed parsed i /\ checked i = true
                                /\ resolves config i n)
           /\ (forall n, In n (labelsToRemove changes) <->
                         exists i, listed parsed i /\ checked i = false
                                   /\ resolves config i n)
           /\ ((forall i j n, listed parsed i -> listed parsed j ->
                              resolves config i n -> resolves config j n ->
                              item_id i = item_id j) ->
               (forall i j, listed parsed i -> listed parsed j ->
                            item_id i = item_id j -> checked i = checked j) ->
               forall n, In n (labelsToAdd changes) ->
                         ~ In n (labelsToRemove changes))).
Proof.
  split.
  { intros Hb. unfold getRequiredLabelChanges.
    now rewrite (parseMessage_unmarked body Hb). }
  intros Hb. destruct (parseMessage_returns body Hb) as (message & E).
  exists message, (labelChangesOf (parseAutoChecklists message) config).
  split; [exact E|].
  split; [exact (getRequiredLabelChanges_run body message config E)|].
  intros parsed.
  pose proof (fun n => labelChangesOf_listed parsed config true n) as Hadd.
  pose proof (fun n => labelChangesOf_listed parsed config false n) as Hrem.
  cbv beta iota in Hadd, Hrem.
  split; [exact Hadd|split; [exact Hrem|]].
  intros Hinj Hflag n Ha Hr.
  apply Hadd in Ha as (i & Hi & Ci & Ri). apply Hrem in Hr as (j & Hj & Cj & Rj).
  pose proof (Hflag i j Hi Hj (Hinj i j n Hi Hj Ri Rj)). congruence.
Qed.

Lemma label_changes_partition_witness :
  exists changes,
    @getRequiredLabelChanges (Standin.collaborators Standin.quiet)
      (Standin.tick "major" Standin.onboarded) tt = Return changes
    /\ In (lit "major") (labelsToAdd changes)
    /\ In (lit "patch") (labelsToRemove changes)
    /\ forall n, In n (labelsToAdd changes) -> ~ In n (labelsToRemove changes).
Proof.
  destruct (proj2 (@label_changes_partition (Standin.collaborators Standin.quiet)
                     (Standin.tick "major" Standin.onboarded) tt))
    as (message & changes & Hm & E & A & R & D).
  - vm_compute. reflexivity.
  - vm_compute in Hm. injection Hm as <-.
    exists changes. split; [exact E|]. split; [|split].
    + apply A. exists (Standin.item "major" true).
      split; [|split; [reflexivity|split; [reflexivity|discriminate]]].
      exists (Standin.semver_of
                (Standin.message_of (Standin.tick "major" Standin.onboarded))).
      split; [vm_compute; left; reflexivity|].
      split; [left; vm_compute; reflexivity|vm_compute; left; reflexivity].
    + apply R. exists (Standin.item "patch" false).
      split; [|split; [reflexivity|split; [reflexivity|discriminate]]].
      exists (Standin.semver_of
                (Standin.message_of (Standin.tick "major" Standin.onboarded))).
      split; [vm_compute; left; reflexivity|].
      split; [left; vm_compute; reflexivity
             |vm_compute; right; right; left; reflexivity].
    + apply D.
      * intros i j n Hi Hj. listed_cases Hi; listed_cases Hj; subst i j;
          intros [Ri _] [Rj _]; try reflexivity;
          vm_compute in Ri, Rj; congruence.
      * intros i j Hi Hj. listed_cases Hi; listed_cases Hj; subst i j;
          try reflexivity; intros F; vm_compute in F; discriminate.
Defined.

(** C10 as stated fails: ids that resolve to distinct names do not keep
    one id from being listed twice, checked under one key and unchecked
    under the other; its label is then in both lists. *)
Lemma label_changes_partition_counterexample :
  let parsed :=
    Standin.parse (Standin.message_of Standin.twice_listed) CHECKLIST_NAMESPACE in
  (forall i j n n',
      listed parsed i -> listed parsed j -> item_id i <> item_id j ->
      @resolves (Standin.collaborators Standin.quiet) tt i n ->
      @resolves (Standin.collaborators Standin.quiet) tt j n' -> n <> n')
  /\ exists changes,
      @getRequiredLabelChanges (Standin.collaborators Standin.quiet)
        Standin.twice_listed tt = Return changes
      /\ In (lit "major") (labelsToAdd changes)
      /\ In (lit "major") (labelsToRemove changes).
Proof.
  split.
  - intros i j n n' Hi Hj. listed_cases Hi; listed_cases Hj; subst i j;
      intros N; exfalso; apply N; reflexivity.
  - eexists. split; [vm_compute; reflexivity|]. split; left; reflexivity.
Qed.

(** ** Bodies without a marker *)

(** C2, as amended.  Extracting the message of a body without the start
    marker throws, a [TypeError], and on such a body the handler makes no
    call for an event other than [opened].  Extracting the message of a
    body that holds the start marker and no end marker after it throws
    nothing: the text after the first start marker is returned, all of it
    when the start marker occurs once, and up to the next start marker
    when it occurs again, whatever follows that one. *)
Theorem extraction_needs_the_start_marker `{Collaborators} (context : PRContext)
    (before rest next : str) :
  (includes MessageStart (pr_body context) = false ->
   parseMessage (pr_body context) = Throw TypeError
   /\ (is_action context "opened" = false -> handler context = ([], Return tt)))
  /\ (includes MessageStart before = false ->
      includes MessageStart rest = false ->
      includes MessageEnd rest = false ->
      parseMessage (before ++ MessageStart ++ rest) = Return rest
      /\ parseMessage (before ++ MessageStart ++ rest ++ MessageStart ++ next)
         = Return rest).
Proof.
  split.
  - intros Hb. split; [now apply parseMessage_unmarked|].
    intros Ho. unfold handler, isOnboarding. rewrite Ho, Hb. reflexivity.
  - intros Hb Hr He.
    pose proof (parseMessage_marked before rest Hb Hr He) as P.
    split; [exact P|].
    unfold parseMessage in *.
    now rewrite (split_second_piece MessageStart before rest next) by auto.
Qed.

Lemma extraction_needs_the_start_marker_witness :
  parseMessage (lit "Fixes a bug") = Throw TypeError
  /\ parseMessage (lit "Fixes a bug " ++ MessageStart ++ lit "- [ ] major")
     = Return (lit "- [ ] major")
  /\ parseMessage
       (lit "Fixes a bug " ++ MessageStart ++ lit "- [ ] major" ++ MessageStart
          ++ lit "- [x] minor" ++ MessageEnd)
     = Return (lit "- [ ] major").
Proof.
  destruct (@extraction_needs_the_start_marker
              (Standin.collaborators Standin.quiet)
              (Standin.on "edited" (lit "Fixes a bug") None)
              (lit "Fixes a bug ") (lit "- [ ] major")
              (lit "- [x] minor" ++ MessageEnd)) as [T1 T2].
  split.
  - apply T1. reflexivity.
  - apply T2; reflexivity.
Defined.

(** C2 as stated fails: with the start marker and no end marker the message
    is extracted without any failure, and a [labeled] event on such a body
    rewrites the body. *)
Lemma extraction_without_end_marker_counterexample :
  let body := lit "Fixes a bug " ++ MessageStart ++ lit "- [ ] major" in
  includes MessageEnd body = false
  /\ parseMessage body = Return (lit "- [ ] major")
  /\ existsb is_mutation
       (trace (@handler (Standin.collaborators Standin.minor_attached)
                 (Standin.on "labeled" body None))) = true.
Proof. vm_compute. auto. Qed.

(** ** The branch of the edits *)

Lemma didMessageChange_true `{Collaborators} (context : PRContext) :
  didMessageChange context = Return true ->
  exists from oldMessage,
    changes_body_from context = Some from /\ parseMessage from = Return oldMessage.
Proof.
  unfold didMessageChange, didBodyChange, previous_body.
  destruct (changes_body_from context) as [from|]; [|discriminate].
  destruct (pr_body context); [discriminate|]. cbn [negb].
  destruct (parseMessage (_ :: _)); [|discriminate].
  destruct (parseMessage from) as [old|] eqn:E; [|discriminate].
  intros _. exists from, old. split; [reflexivity|exact E].
Qed.

(** C5, as amended.  On the branch of the edits the labels are added and
    removed when the checklists changed, the removal being attempted
    whether or not the addition failed, and the body is rewritten in every
    case, whether or not the labels changed or failed.  If any of the calls
    failed, each failure is logged and one [Error] is thrown after all of
    them, with a fixed message and nothing of the failures in it. *)
Theorem edited_failures_are_aggregated `{Collaborators} (context : PRContext) :
  let config := getConfig context in
  let newMessage := onBoardingMessage (sectionsOf context config false) in
  is_action context "edited" = true ->
  isOnboarding (pr_body context) = true ->
  didMessageChange context = Return true ->
  sentByThisApp context = false ->
  exists body from oldMessage changes,
    overwriteMessage (pr_body context) newMessage = Return body
    /\ changes_body_from context = Some from
    /\ parseMessage from = Return oldMessage
    /\ getRequiredLabelChanges body config = Return changes
    /\ let changed := didChecklistsChange newMessage oldMessage in
       let addLabelsError :=
         if changed then addLabelsToPR context (labelsToAdd changes) else None in
       let removeLabelsError :=
         if changed then removeLabelsFromPR context (labelsToRemove changes)
         else None in
       let updateBodyError := pulls_update context body in
       let failed :=
         is_some addLabelsError || is_some removeLabelsError
         || is_some updateBodyError in
       trace (handler context) =
         populates config
         ++ (if changed
             then [ AddLabels (labelsToAdd changes);
                    RemoveLabels (labelsToRemove changes) ]
             else [])
         ++ [UpdateBody body]
         ++ (if failed
             then log_of "Error when trying to add labels" addLabelsError
                  ++ log_of "Error when trying to remove labels" removeLabelsError
                  ++ log_of "Error when trying to update the body" updateBodyError
             else [])
       /\ result (handler context) =
          if failed then Throw (Error aggregated_message) else Return tt.
Proof.
  intros config newMessage Ha Ho Hc Hs.
  destruct (overwriteMessage_returns (pr_body context) newMessage Ho) as (body & Hb).
  destruct (didMessageChange_true context Hc) as (from & oldMessage & Hf & Hp).
  destruct (parseMessage_returns body (overwriteMessage_marked _ _ _ Hb))
    as (message & Hm).
  exists body, from, oldMessage, (labelChangesOf (parseAutoChecklists message) config).
  split; [exact Hb|]. split; [exact Hf|]. split; [exact Hp|].
  split; [exact (getRequiredLabelChanges_run body message config Hm)|].
  unfold handler.
  rewrite (is_action_exclusive context "edited" "opened" Ha) by discriminate.
  rewrite Ha, Ho, Hc. cbn [andb negb lift bind fst snd app].
  unfold editedFlow. rewrite Hs. fold config.
  rewrite createLabelChecklists_run. unfold lift, previous_body.
  cbn [bind fst snd]. fold newMessage. rewrite Hb. cbn [bind fst snd].
  rewrite Hf. cbn [bind fst snd]. rewrite Hp. cbn [bind fst snd].
  rewrite (getRequiredLabelChanges_run body message config Hm).
  set (changes := labelChangesOf (parseAutoChecklists message) config).
  unfold attempt, log_of, log_if, trace, result, emit, throw, ret.
  destruct (didChecklistsChange newMessage oldMessage);
    cbn [bind fst snd];
    destruct (addLabelsToPR context (labelsToAdd changes));
    destruct (removeLabelsFromPR context (labelsToRemove changes));
    destruct (pulls_update context body);
    cbn [bind fst snd is_some orb];
    rewrite <- ?app_assoc; cbn [app]; rewrite ?app_nil_r; split; reflexivity.
Qed.

Lemma edited_failures_are_aggregated_witness :
  let previous := Standin.tick "major" Standin.onboarded in
  let body := Standin.tick "minor" previous in
  result (@handler (Standin.collaborators Standin.update_refused)
            (Standin.on "edited" body (Some previous)))
  = Throw (Error aggregated_message).
Proof.
  intros previous body.
  destruct (@edited_failures_are_aggregated
              (Standin.collaborators Standin.update_refused)
              (Standin.on "edited" body (Some previous)))
    as (b & f & o & ch & _ & _ & _ & _ & _ & R).
  - reflexivity.
  - vm_compute. reflexivity.
  - vm_compute. reflexivity.
  - reflexivity.
  - rewrite R. cbn [pulls_update Standin.collaborators Standin.update_fails
                      Standin.update_refused is_some].
    now rewrite orb_true_r.
Defined.

(** C5 as stated fails: the error raised when the addition of the labels
    is refused is the error raised when the update of the body is refused;
    it holds a fixed message and nothing of either failure. *)
Lemma edited_failures_are_aggregated_counterexample :
  let previous := Standin.tick "major" Standin.onboarded in
  let body := Standin.tick "minor" previous in
  let context := Standin.on "edited" body (Some previous) in
  Standin.add_fails Standin.add_refused <> Standin.update_fails Standin.add_refused
  /\ result (@handler (Standin.collaborators Standin.add_refused) context)
     = Throw (Error aggregated_message)
  /\ result (@handler (Standin.collaborators Standin.update_refused) context)
     = Throw (Error aggregated_message).
Proof.
  split; [discriminate|]. vm_compute. auto.
Qed.

(** ** The branch of the opening *)

(** C8.  The description written at the opening is not always the body
    followed by the envelope.  On an [opened] event on a pull request
    without release label whose body holds a line indented by four spaces,
    the handler populates the labels and updates the description once, and
    the text it writes does not begin with the body: it begins with the
    body without the indentation, the template tag having been applied to
    the text of the user as well.  On the same text followed by an envelope,
    [overwriteMessage] keeps the indentation. *)
Theorem opened_rewrites_an_indented_body :
  let body := unlines [lit "Steps:"; lit "    make release"] in
  let context := Standin.on "opened" body None in
  exists written,
    @handler (Standin.collaborators Standin.quiet) context
    = (@populates (Standin.collaborators Standin.quiet) tt
       ++ [UpdateBody written], Return tt)
    /\ starts_with body written = false
    /\ starts_with
         (unlines [lit "Steps:"; lit "make release"; lit "  ";
                   lit "  " ++ MessageStart])
         written = true
    /\ overwriteMessage (body ++ [nl; nl] ++ messageWrapper (lit "x")) (lit "y")
       = Return (body ++ [nl; nl] ++ messageWrapper (lit "y")).
Proof.
  intros body context.
  exists (match Standin.written
                  (trace (@handler (Standin.collaborators Standin.quiet) context))
          with Some w => w | None => [] end).
  split; [|split; [|split]]; vm_compute; reflexivity.
Qed.

(** ** A second box ticked *)






Lemma overwriteMessage_onboarding (body content body' : str) :
  overwriteMessage body content = Return body' -> isOnboarding body = true.
Proof.
  intros E. unfold isOnboarding. destruct (includes MessageStart body) eqn:I;
    [reflexivity|].
  unfold overwriteMessage in E.
  rewrite split_no_marker in E by auto. discriminate.
Qed.




(** * Further properties *)

(** ** Reading and rewriting the envelope *)

(** The text before the first occurrence holds no occurrence. *)
Lemma cut_before (sep s b a : str) :
  sep <> [] -> cut sep s = Some (b, a) -> cut sep b = None.
Proof.
  intros Hsep. revert b a. induction s as [|c s IH]; intros b a; cbn [cut].
  - destruct (starts_with sep []); [|discriminate].
    intros [= <- _]. now apply cut_nil.
  - destruct (starts_with sep (c :: s)) eqn:E.
    + intros [= <- _]. now apply cut_nil.
    + destruct (cut sep s) as [[b' a']|] eqn:C; [|discriminate].
      intros [= <- <-]. cbn [cut].
      destruct (starts_with sep (c :: b')) eqn:E'.
      * apply cut_sound in C. subst s.
        apply (starts_with_app_l _ _ (sep ++ a')) in E'.
        simpl in E', E. congruence.
      * now rewrite (IH _ _ eq_refl).
Qed.

(** No piece of a split holds the separator. *)
Lemma split_piece_clean (sep s l : str) :
  sep <> [] -> In l (split sep s) -> includes sep l = false.
Proof.
  intros Hsep. remember (length s) as n eqn:Hn. revert s Hn.
  induction n as [n IH] using lt_wf_ind. intros s Hn.
  rewrite split_cut by assumption.
  destruct (cut sep s) as [[b a]|] eqn:C.
  - pose proof (cut_length _ _ _ _ C) as L.
    assert (0 < length sep) by (destruct sep; [congruence|simpl; lia]).
    intros [<-|Hin].
    + apply includes_false_cut. eapply cut_before; eassumption.
    + apply (IH (length a) ltac:(lia) a eq_refl Hin).
  - intros [<-|[]]. now apply includes_false_cut.
Qed.

(** The message of a body that holds an envelope whose text has no marker,
    whatever follows the envelope. *)
Lemma parseMessage_around (a mid rest : str) :
  includes MessageStart a = false ->
  includes MessageStart mid = false ->
  includes MessageEnd mid = false ->
  parseMessage (a ++ MessageStart ++ mid ++ MessageEnd ++ rest) = Return mid.
Proof.
  intros Ha Hs He. unfold parseMessage.
  rewrite split_marker by auto. cbn [nth_error].
  rewrite (split_cut MessageStart) by discriminate.
  apply includes_false_cut in Hs.
  rewrite (cut_none_app MessageStart mid (MessageEnd ++ rest) Hs)
    by (apply not_in_b; reflexivity).
  rewrite (cut_never_starts MessageStart MessageEnd rest) by reflexivity.
  destruct (cut MessageStart rest) as [[b r]|]; cbn [nth_error];
    rewrite split_marker by auto; reflexivity.
Qed.

Lemma messageWrapper_clean (x : str) :
  includes MessageStart x = false ->
  includes MessageEnd x = false ->
  exists mid,
    messageWrapper x = MessageStart ++ mid ++ MessageEnd
    /\ includes MessageStart mid = false
    /\ includes MessageEnd mid = false.
Proof.
  intros Hs He. destruct (messageWrapper_shape x) as (m & Hm & E).
  exists (expand_newlines (wrapper_mid m x)). split; [exact E|].
  split; apply wrapper_mid_clean; auto.
Qed.

(** What [overwriteMessage] returns, by the pieces it keeps. *)
Lemma overwriteMessage_pieces (body content body' : str) :
  overwriteMessage body content = Return body' ->
  exists before after,
    body' = before ++ messageWrapper content ++ after
    /\ (forall other,
          overwriteMessage body other
          = Return (before ++ messageWrapper other ++ after))
    /\ includes MessageStart before = false
    /\ includes MessageStart after = false
    /\ includes MessageEnd after = false.
Proof.
  unfold overwriteMessage.
  destruct (split MessageStart body) as [|p0 [|bh ps]] eqn:S; try discriminate.
  cbn [nth_error js_string]. intros [= <-].
  assert (Hp0 : includes MessageStart p0 = false).
  { apply (split_piece_clean MessageStart body); [discriminate|].
    rewrite S. now left. }
  assert (Hbh : includes MessageStart bh = false).
  { apply (split_piece_clean MessageStart body); [discriminate|].
    rewrite S. right. now left. }
  exists p0, (js_string (nth_error (split MessageEnd bh) 1)).
  split; [reflexivity|]. split; [reflexivity|]. split; [exact Hp0|].
  destruct (nth_error (split MessageEnd bh) 1) as [e|] eqn:N; cbn [js_string].
  - apply nth_error_In in N. split.
    + destruct (split_In_part MessageEnd bh e ltac:(discriminate) N) as (p & q & E).
      eapply includes_part; eassumption.
    + apply (split_piece_clean MessageEnd bh); [discriminate|assumption].
  - split; reflexivity.
Qed.

Lemma overwriteMessage_envelope (a mid b z : str) :
  includes MessageStart a = false ->
  includes MessageStart mid = false ->
  includes MessageEnd mid = false ->
  includes MessageStart b = false ->
  includes MessageEnd b = false ->
  overwriteMessage (a ++ MessageStart ++ mid ++ MessageEnd ++ b) z
  = Return (a ++ messageWrapper z ++ b).
Proof.
  intros Ha Hms Hme Hbs Hbe. unfold overwriteMessage.
  rewrite split_marker by auto.
  rewrite (split_no_marker MessageStart (mid ++ MessageEnd ++ b))
    by (auto using no_start_around_end).
  cbn [nth_error].
  rewrite split_marker, (split_no_marker MessageEnd b) by auto.
  reflexivity.
Qed.

Lemma messageWrapper_is_delimited_aux (x : str) :
  exists m, parseMessage (messageWrapper x) = Return m.
Proof.
  apply parseMessage_returns. apply includes_occurs.
  destruct (messageWrapper_shape x) as (m & _ & E). rewrite E.
  now exists [], (expand_newlines (wrapper_mid m x) ++ MessageEnd).
Qed.

(** X1.  Whatever the content, a wrapped message begins with the start
    marker and ends with the end marker; it is recognised as on-boarding
    and its message can be extracted. *)
Theorem messageWrapper_is_delimited (x : str) :
  starts_with MessageStart (messageWrapper x) = true
  /\ (exists p, messageWrapper x = p ++ MessageEnd)
  /\ isOnboarding (messageWrapper x) = true
  /\ exists m, parseMessage (messageWrapper x) = Return m.
Proof.
  destruct (messageWrapper_shape x) as (m & _ & E).
  assert (Ho : isOnboarding (messageWrapper x) = true).
  { apply includes_occurs. rewrite E. now exists [], (expand_newlines (wrapper_mid m x) ++ MessageEnd). }
  split; [rewrite E; apply starts_with_app|].
  split; [exists (MessageStart ++ expand_newlines (wrapper_mid m x));
          rewrite E; now rewrite <- app_assoc|].
  split; [exact Ho|]. now apply parseMessage_returns.
Qed.

(** The message of a wrapped content does not depend on what is around. *)
Lemma parseMessage_wrapped (A B x : str) :
  includes MessageStart A = false ->
  includes MessageStart x = false ->
  includes MessageEnd x = false ->
  parseMessage (A ++ messageWrapper x ++ B) = parseMessage (messageWrapper x).
Proof.
  intros HA Hs He.
  destruct (messageWrapper_clean x Hs He) as (mid & -> & Ms & Me).
  replace (A ++ (MessageStart ++ mid ++ MessageEnd) ++ B)
    with (A ++ MessageStart ++ mid ++ MessageEnd ++ B)
    by now rewrite <- !app_assoc.
  rewrite (parseMessage_around A mid B) by assumption.
  replace (MessageStart ++ mid ++ MessageEnd)
    with ([] ++ MessageStart ++ mid ++ MessageEnd ++ [])
    by (cbn [app]; now rewrite app_nil_r).
  now rewrite (parseMessage_around [] mid []).
Qed.

(** X2.  The message extracted from a body depends on the envelope alone:
    around a wrapped content without marker, a prefix without start marker
    and any suffix leave the extracted message as it is. *)
Theorem parseMessage_ignores_surroundings (A B x : str) :
  includes MessageStart A = false ->
  includes MessageStart x = false ->
  includes MessageEnd x = false ->
  parseMessage (A ++ messageWrapper x ++ B) = parseMessage (messageWrapper x).
Proof. apply parseMessage_wrapped. Qed.

Lemma parseMessage_ignores_surroundings_witness :
  parseMessage
    (lit "Fixes #12. " ++ messageWrapper (lit "- [ ] major")
       ++ lit " See " ++ MessageEnd)
  = parseMessage (messageWrapper (lit "- [ ] major")).
Proof.
  apply (parseMessage_ignores_surroundings (lit "Fixes #12. ")
           (lit " See " ++ MessageEnd) (lit "- [ ] major")); reflexivity.
Defined.

(** X3.  What is written is what is read: the message extracted from the
    body that [overwriteMessage] returns for a content without marker is
    the message of the wrapped content, whatever the body was. *)
Theorem parseMessage_reads_what_was_written (body x body' : str) :
  includes MessageStart x = false ->
  includes MessageEnd x = false ->
  overwriteMessage body x = Return body' ->
  parseMessage body' = parseMessage (messageWrapper x).
Proof.
  intros Hs He Ho.
  destruct (overwriteMessage_pieces body x body' Ho)
    as (before & after & -> & _ & Hb & _ & _).
  now apply parseMessage_wrapped.
Qed.

Lemma parseMessage_reads_what_was_written_witness :
  parseMessage
    (lit "a" ++ messageWrapper (lit "- [x] major") ++ lit "undefined")
  = parseMessage (messageWrapper (lit "- [x] major")).
Proof.
  apply (parseMessage_reads_what_was_written
           (lit "a" ++ MessageStart ++ lit "- [ ] major") (lit "- [x] major"));
    reflexivity.
Defined.

(** X4.  The last write wins: rewriting the message of a body that
    [overwriteMessage] returned for a content without marker gives what
    rewriting the message of the first body gives; in particular writing
    the same content twice changes nothing the second time. *)
Theorem overwriteMessage_last_write_wins (body y z body' : str) :
  includes MessageStart y = false ->
  includes MessageEnd y = false ->
  overwriteMessage body y = Return body' ->
  overwriteMessage body' z = overwriteMessage body z
  /\ overwriteMessage body' y = Return body'.
Proof.
  intros Hs He Ho.
  destruct (overwriteMessage_pieces body y body' Ho)
    as (before & after & E & Hall & Hb & Has & Hae).
  destruct (messageWrapper_clean y Hs He) as (mid & Ew & Ms & Me).
  assert (G : forall other,
             overwriteMessage body' other
             = Return (before ++ messageWrapper other ++ after)).
  { intros other. rewrite E, Ew.
    replace (before ++ (MessageStart ++ mid ++ MessageEnd) ++ after)
      with (before ++ MessageStart ++ mid ++ MessageEnd ++ after)
      by now rewrite <- !app_assoc.
    now apply overwriteMessage_envelope. }
  split.
  - now rewrite G, Hall.
  - now rewrite G, E.
Qed.

Lemma overwriteMessage_last_write_wins_witness :
  let body := lit "a" ++ MessageStart ++ lit "old" ++ MessageEnd ++ lit "b"
              ++ MessageStart ++ lit "c" in
  let body' := lit "a" ++ messageWrapper (lit "y") ++ lit "b" in
  overwriteMessage body' (lit "z") = overwriteMessage body (lit "z")
  /\ overwriteMessage body' (lit "y") = Return body'.
Proof.
  intros body body'.
  apply (overwriteMessage_last_write_wins body (lit "y") (lit "z") body');
    reflexivity.
Defined.

(** ** The exact text of a wrapped message *)

Lemma mindent_fold_ge (lo : nat) (ls : list str) (acc : option nat) :
  1 <= lo ->
  (forall l k, In l ls -> indent_of l = Some k -> lo <= k) ->
  (forall a, acc = Some a -> lo <= a) ->
  forall m, fold_left mindent_step ls acc = Some m -> lo <= m.
Proof.
  intros Hlo. revert acc. induction ls as [|l ls IH]; intros acc Hls Hacc m; simpl.
  - apply Hacc.
  - apply IH.
    + intros l' k Hin. apply Hls. now right.
    + intros a. unfold mindent_step.
      destruct (indent_of l) as [k|] eqn:E; [|apply Hacc].
      assert (lo <= k) by (apply (Hls l k); [now left|exact E]).
      destruct acc as [[|a0]|]; intros Ea.
      * injection Ea as <-. assumption.
      * assert (Em : a = Nat.min (S a0) k) by congruence. subst a.
        apply Nat.min_glb; [apply Hacc; reflexivity|assumption].
      * injection Ea as <-. assumption.
Qed.

Lemma mindent_ge (lo : nat) (ls : list str) (m : nat) :
  1 <= lo ->
  (forall l k, In l ls -> indent_of l = Some k -> lo <= k) ->
  mindent_of ls = Some m -> lo <= m.
Proof.
  intros Hlo Hls. apply (mindent_fold_ge lo ls None Hlo Hls). discriminate.
Qed.

Lemma strip_flush (m : nat) (ls : list str) :
  forallb (fun l => negb (indented l)) ls = true -> map (strip_line m) ls = ls.
Proof.
  induction ls as [|l ls IH]; [reflexivity|].
  cbn [forallb map]. intros E. apply andb_true_iff in E as [E1 E2].
  rewrite (IH E2). f_equal. apply strip_line_flush.
  destruct l as [|c l]; [reflexivity|]. cbn [starts_with indented] in *.
  rewrite andb_true_r. destruct (char_eqb space c) eqn:Ec; [|reflexivity].
  apply char_eqb_eq in Ec. subst c. discriminate.
Qed.

Lemma indent_of_flush (l : str) : indented l = false -> indent_of l = None.
Proof.
  destruct l as [|c l]; [reflexivity|]. cbn [indented]. intros E.
  unfold indent_of. cbn [ws_run]. now rewrite E.
Qed.

Lemma indent_of_padded (x1 : str) (k : nat) :
  indent_of (lit "    " ++ x1) = Some k -> 4 <= k.
Proof.
  unfold indent_of.
  assert (E : ws_run (lit "    " ++ x1) = 4 + ws_run x1) by reflexivity.
  rewrite E. destruct (_ && _); [|discriminate]. intros [= <-]. lia.
Qed.

(** The wrapped message when dedent removes [m] spaces. *)
Lemma messageWrapper_at (x : str) (m : nat) :
  mindent_of (wrapper_head ++ split [nl] (lit "    " ++ x) ++ wrapper_tail)
  = Some m ->
  1 <= m <= 4 ->
  messageWrapper x =
  MessageStart ++ expand_newlines (wrapper_mid m x) ++ MessageEnd.
Proof.
  intros Hm Hb.
  unfold messageWrapper, dedent, strip_indentation.
  rewrite wrapper_lines, Hm, !map_app.
  rewrite join_app;
    [|discriminate
     |intros F; apply app_eq_nil in F as [F _]; apply map_eq_nil in F;
      now apply split_nl_not_nil in F].
  rewrite join_app;
    [|intros F; apply map_eq_nil in F; now apply split_nl_not_nil in F
     |discriminate].
  rewrite wrapper_head_join, wrapper_tail_join by assumption.
  unfold wrapper_mid.
  rewrite <- expand_newlines_markers. f_equal.
  rewrite <- (trim_markers (nl :: pad m) [space; nl]);
    [|apply pad_ws|reflexivity].
  f_equal.
  rewrite join_app;
    [|discriminate
     |intros F; apply app_eq_nil in F as [F _]; apply map_eq_nil in F;
      now apply split_nl_not_nil in F].
  rewrite join_app;
    [|intros F; apply map_eq_nil in F; now apply split_nl_not_nil in F
     |discriminate].
  rewrite <- !app_assoc. reflexivity.
Qed.

Lemma wrapper_exact (x : str) :
  flush x = true ->
  includes [backslash; letter_n] x = false ->
  messageWrapper x =
  MessageStart ++ wrapper_open ++ x ++ wrapper_close ++ MessageEnd.
Proof.
  intros Hf Hbn.
  destruct (split_hd [nl] x ltac:(discriminate)) as (x1 & xs & Ex).
  unfold flush in Hf. rewrite Ex in Hf. cbn [tl] in Hf.
  assert (Lx : split [nl] (lit "    " ++ x) = (lit "    " ++ x1) :: xs).
  { apply split_prepend; [apply not_in_b; reflexivity|exact Ex]. }
  destruct (mindent_bound
              (wrapper_head ++ split [nl] (lit "    " ++ x) ++ wrapper_tail)
              (lit "    " ++ MessageStart ++ lit " ") 4)
    as (m & Hm & Hb).
  { right. left. reflexivity. }
  { reflexivity. }
  assert (H4 : 4 <= m).
  { apply (mindent_ge 4
             (wrapper_head ++ split [nl] (lit "    " ++ x) ++ wrapper_tail) m);
      [lia| |exact Hm].
    intros l k Hin Hk. rewrite Lx in Hin.
    apply in_app_or in Hin as [Hin|Hin];
      [|apply in_app_or in Hin as [[<-|Hin]|Hin]].
    - destruct Hin as [<-|[<-|[<-|[<-|[]]]]]; vm_compute in Hk;
        try discriminate; injection Hk as <-; lia.
    - now apply (indent_of_padded x1).
    - rewrite forallb_forall in Hf. specialize (Hf l Hin).
      apply negb_true_iff in Hf. rewrite (indent_of_flush l Hf) in Hk.
      discriminate.
    - destruct Hin as [<-|[<-|[<-|[<-|[]]]]]; vm_compute in Hk;
        try discriminate; injection Hk as <-; lia. }
  assert (m = 4) by lia. subst m.
  rewrite (messageWrapper_at x 4 Hm Hb). f_equal.
  unfold wrapper_mid. rewrite Lx. cbn [map].
  rewrite (strip_flush 4 xs Hf).
  replace (strip_line 4 (lit "    " ++ x1)) with x1 by reflexivity.
  rewrite join_app by discriminate.
  rewrite (join_app [nl] (x1 :: xs)) by discriminate.
  rewrite <- Ex, join_split by discriminate.
  replace (join [nl] (mid_head 4) ++ [nl] ++ x ++ [nl] ++ join [nl] (mid_tail 4))
    with (wrapper_open ++ x ++ nl :: join [nl] (mid_tail 4)) by reflexivity.
  rewrite expand_newlines_app_l by (apply not_in_b; reflexivity).
  rewrite expand_newlines_clean by exact Hbn.
  replace (expand_newlines (join [nl] (mid_tail 4)))
    with (join [nl] (mid_tail 4)) by (vm_compute; reflexivity).
  rewrite <- !app_assoc. reflexivity.
Qed.

(** X5.  The exact text of a wrapped message.  For a body in which no line
    after the first begins with white space and no backslash is followed by
    the letter n, the wrapped message is the start marker, a rule, the
    body as it is, the signature and the end marker. *)
Theorem messageWrapper_exact (x : str) :
  flush x = true ->
  includes [backslash; letter_n] x = false ->
  messageWrapper x =
  MessageStart ++ wrapper_open ++ x ++ wrapper_close ++ MessageEnd.
Proof. apply wrapper_exact. Qed.

Lemma messageWrapper_exact_witness :
  messageWrapper (unlines [lit "### Choose"; lit "- [ ] major"]) =
  MessageStart ++ wrapper_open ++ unlines [lit "### Choose"; lit "- [ ] major"]
  ++ wrapper_close ++ MessageEnd.
Proof.
  apply messageWrapper_exact; reflexivity.
Defined.

(** X6.  The round trip of the envelope: the message extracted from a body
    that holds a wrapped content, after a prefix without start marker and
    before any suffix, is the rule, the content as it is and the signature,
    when the content has no marker, no line after the first that begins
    with white space and no backslash followed by the letter n. *)
Theorem parseMessage_of_wrapped (A B x : str) :
  includes MessageStart A = false ->
  includes MessageStart x = false ->
  includes MessageEnd x = false ->
  flush x = true ->
  includes [backslash; letter_n] x = false ->
  parseMessage (A ++ messageWrapper x ++ B)
  = Return (wrapper_open ++ x ++ wrapper_close).
Proof.
  intros HA Hs He Hf Hbn.
  destruct (messageWrapper_clean x Hs He) as (mid & Ew & Ms & Me).
  assert (Em : mid = wrapper_open ++ x ++ wrapper_close).
  { rewrite (wrapper_exact x Hf Hbn) in Ew.
    apply app_inv_head in Ew.
    replace (wrapper_open ++ x ++ wrapper_close ++ MessageEnd)
      with ((wrapper_open ++ x ++ wrapper_close) ++ MessageEnd) in Ew
      by now rewrite <- !app_assoc.
    apply app_inv_tail in Ew. now symmetry. }
  rewrite Ew, <- Em.
  replace (A ++ (MessageStart ++ mid ++ MessageEnd) ++ B)
    with (A ++ MessageStart ++ mid ++ MessageEnd ++ B)
    by now rewrite <- !app_assoc.
  now apply parseMessage_around.
Qed.

Lemma parseMessage_of_wrapped_witness :
  parseMessage
    (lit "Fixes #12. "
     ++ messageWrapper (unlines [lit "### Choose"; lit "- [ ] major"])
     ++ lit " Thanks!")
  = Return (wrapper_open ++ unlines [lit "### Choose"; lit "- [ ] major"]
            ++ wrapper_close).
Proof.
  apply parseMessage_of_wrapped; reflexivity.
Defined.

(** ** The guard of the envelope functions *)

(** X7.  [isOnboarding] is the guard of the functions that read the
    envelope: on a body that holds the start marker, [parseMessage],
    [overwriteMessage] and [getRequiredLabelChanges] all return; on a body
    that does not, all three throw a [TypeError]. *)
Theorem isOnboarding_guards_the_envelope `{Collaborators} (body content : str)
    (config : Config) :
  (isOnboarding body = true ->
   (exists m, parseMessage body = Return m)
   /\ (exists body', overwriteMessage body content = Return body')
   /\ (exists changes, getRequiredLabelChanges body config = Return changes))
  /\ (isOnboarding body = false ->
      parseMessage body = Throw TypeError
      /\ overwriteMessage body content = Throw TypeError
      /\ getRequiredLabelChanges body config = Throw TypeError).
Proof.
  split; intros Ho.
  - destruct (parseMessage_returns body Ho) as (m & Hm).
    split; [eauto|]. split; [now apply overwriteMessage_returns|].
    unfold getRequiredLabelChanges. rewrite Hm. eauto.
  - assert (Hp : parseMessage body = Throw TypeError)
      by now apply parseMessage_unmarked.
    split; [exact Hp|]. split.
    + unfold overwriteMessage. rewrite split_no_marker by auto. reflexivity.
    + unfold getRequiredLabelChanges. now rewrite Hp.
Qed.

Lemma isOnboarding_guards_the_envelope_witness :
  (exists m, parseMessage (lit "a" ++ MessageStart ++ lit "b") = Return m)
  /\ parseMessage (lit "ab") = Throw TypeError.
Proof.
  split.
  - apply (proj1 (@isOnboarding_guards_the_envelope
                    (Standin.collaborators Standin.quiet)
                    (lit "a" ++ MessageStart ++ lit "b") [] tt)).
    reflexivity.
  - apply (proj2 (@isOnboarding_guards_the_envelope
                    (Standin.collaborators Standin.quiet) (lit "ab") [] tt)).
    reflexivity.
Defined.

(** ** Events that the handler lets pass *)

(** X8.  An event whose action is none of [opened], [edited], [labeled] and
    [unlabeled] is let pass: the handler makes no call and returns,
    without reading the body and without asking who sent the event. *)
Theorem other_actions_are_ignored `{Collaborators} (context : PRContext) :
  is_action context "opened" = false ->
  is_action context "edited" = false ->
  is_action context "labeled" = false ->
  is_action context "unlabeled" = false ->
  handler context = ([], Return tt).
Proof.
  intros H1 H2 H3 H4. unfold handler. rewrite H1, H2, H3, H4.
  cbn [andb negb orb]. rewrite !andb_false_r. reflexivity.
Qed.

Lemma other_actions_are_ignored_witness :
  @handler (Standin.collaborators Standin.quiet)
    (Standin.on "closed" Standin.onboarded None) = ([], Return tt).
Proof.
  apply (@other_actions_are_ignored (Standin.collaborators Standin.quiet));
    reflexivity.
Defined.

Lemma body_with_wrapper_not_nil (A B x : str) : A ++ messageWrapper x ++ B <> [].
Proof.
  destruct (messageWrapper_shape x) as (m & _ & E). rewrite E.
  intros F. apply app_eq_nil in F as [_ F]. apply app_eq_nil in F as [F _].
  discriminate.
Qed.

(** X9.  An edit outside the envelope is let pass.  When the body and the
    previous body hold the same wrapped content, after prefixes without
    start marker and before any suffixes, the handler of an [edited] event
    makes no call and returns, whoever sent the event. *)
Theorem edit_outside_the_envelope_is_ignored `{Collaborators}
    (context : PRContext) (A B A' B' x : str) :
  is_action context "edited" = true ->
  pr_body context = A ++ messageWrapper x ++ B ->
  changes_body_from context = Some (A' ++ messageWrapper x ++ B') ->
  includes MessageStart A = false ->
  includes MessageStart A' = false ->
  includes MessageStart x = false ->
  includes MessageEnd x = false ->
  handler context = ([], Return tt).
Proof.
  intros Ha Eb Ef HA HA' Hs He.
  destruct (messageWrapper_is_delimited_aux x) as (m & Hm).
  assert (Hd : didMessageChange context = Return false).
  { unfold didMessageChange, didBodyChange, previous_body. rewrite Ef, Eb.
    destruct (A ++ messageWrapper x ++ B) eqn:E;
      [now apply body_with_wrapper_not_nil in E|].
    rewrite <- E. cbn [negb].
    rewrite !parseMessage_wrapped by assumption.
    rewrite Hm. now rewrite str_eqb_refl. }
  unfold handler.
  rewrite (is_action_exclusive context "edited" "opened" Ha) by discriminate.
  rewrite (is_action_exclusive context "edited" "labeled" Ha) by discriminate.
  rewrite (is_action_exclusive context "edited" "unlabeled" Ha) by discriminate.
  rewrite Ha, Hd. cbn [andb negb orb].
  destruct (isOnboarding (pr_body context)); reflexivity.
Qed.

Lemma edit_outside_the_envelope_is_ignored_witness :
  @handler (Standin.collaborators Standin.quiet)
    (Standin.on "edited"
       (lit "Fixes #12 and #13. " ++ messageWrapper (lit "- [ ] major") ++ lit " Thanks!")
       (Some (lit "Fixes #12. " ++ messageWrapper (lit "- [ ] major") ++ [])))
  = ([], Return tt).
Proof.
  apply (@edit_outside_the_envelope_is_ignored
           (Standin.collaborators Standin.quiet) _
           (lit "Fixes #12 and #13. ") (lit " Thanks!") (lit "Fixes #12. ") []
           (lit "- [ ] major")); reflexivity.
Defined.

(** X10.  An edit that brings the envelope into a body that had none makes
    the handler throw: for an [edited] event whose body holds the start
    marker and whose previous body does not, the handler throws a
    [TypeError] before any call. *)
Theorem edit_that_brings_the_envelope_throws `{Collaborators}
    (context : PRContext) (from : str) :
  is_action context "edited" = true ->
  isOnboarding (pr_body context) = true ->
  changes_body_from context = Some from ->
  isOnboarding from = false ->
  handler context = ([], Throw TypeError).
Proof.
  intros Ha Ho Ef Hf.
  destruct (parseMessage_returns _ Ho) as (m & Hm).
  assert (Hd : didMessageChange context = Throw TypeError).
  { unfold didMessageChange, didBodyChange, previous_body. rewrite Ef.
    destruct (pr_body context) eqn:E; [discriminate|].
    cbn [negb]. rewrite Hm. now rewrite parseMessage_unmarked. }
  unfold handler.
  rewrite (is_action_exclusive context "edited" "opened" Ha) by discriminate.
  rewrite Ha, Ho, Hd. reflexivity.
Qed.

Lemma edit_that_brings_the_envelope_throws_witness :
  @handler (Standin.collaborators Standin.quiet)
    (Standin.on "edited" Standin.onboarded (Some (lit "Fixes a bug")))
  = ([], Throw TypeError).
Proof.
  apply (@edit_that_brings_the_envelope_throws
           (Standin.collaborators Standin.quiet) _ (lit "Fixes a bug"));
    reflexivity.
Defined.

(** ** The branch of the label events *)

(** X11.  On a [labeled] or [unlabeled] event on an on-boarded body, not
    sent by the application, the handler populates the labels, then
    updates the body only if the checklists rendered from the attached
    labels differ from those of the embedded message; if the update fails,
    a message is logged without the failure and the failure itself is
    thrown again. *)
Theorem labeled_flow_outcome `{Collaborators} (context : PRContext) :
  let config := getConfig context in
  let newMessage := onBoardingMessage (sectionsOf context config true) in
  (is_action context "labeled" || is_action context "unlabeled") = true ->
  isOnboarding (pr_body context) = true ->
  sentByThisApp context = false ->
  exists oldMessage body,
    parseMessage (pr_body context) = Return oldMessage
    /\ overwriteMessage (pr_body context) newMessage = Return body
    /\ handler context =
       if didChecklistsChange newMessage oldMessage
       then match pulls_update context body with
            | None => (populates config ++ [UpdateBody body], Return tt)
            | Some e =>
                (populates config
                 ++ [ UpdateBody body;
                      LogError (lit "Failed to update body after label updates")
                        None ],
                 Throw (Rejected e))
            end
       else (populates config, Return tt).
Proof.
  intros config newMessage Ha Ho Hs.
  destruct (parseMessage_returns _ Ho) as (old & Hold).
  destruct (overwriteMessage_returns (pr_body context) newMessage Ho)
    as (body & Hb).
  exists old, body. split; [exact Hold|]. split; [exact Hb|].
  assert (Hop : is_action context "opened" = false).
  { apply orb_true_iff in Ha as [E|E];
      apply (is_action_exclusive context _ "opened" E); discriminate. }
  assert (Hed : is_action context "edited" = false).
  { apply orb_true_iff in Ha as [E|E];
      apply (is_action_exclusive context _ "edited" E); discriminate. }
  unfold handler. rewrite Hop, Hed, Ho, Ha. cbn [andb negb].
  cbn [ret bind fst snd app]. unfold labeledFlow. rewrite Hs. fold config.
  rewrite createLabelChecklists_run. unfold lift, attempt, emit, throw, ret.
  cbn [bind fst snd]. fold newMessage. rewrite Hold. cbn [bind fst snd].
  destruct (didChecklistsChange newMessage old).
  - rewrite Hb. cbn [bind fst snd].
    destruct (pulls_update context body); cbn [bind fst snd];
      rewrite <- ?app_assoc; cbn [app]; rewrite ?app_nil_r; reflexivity.
  - cbn [bind fst snd]. rewrite ?app_nil_r. reflexivity.
Qed.

Lemma labeled_flow_outcome_witness :
  exists oldMessage body,
    parseMessage (lit "a" ++ MessageStart ++ lit "b") = Return oldMessage
    /\ overwriteMessage (lit "a" ++ MessageStart ++ lit "b")
         (onBoardingMessage
            (@sectionsOf (Standin.collaborators Standin.update_refused)
               (Standin.on "labeled" (lit "a" ++ MessageStart ++ lit "b") None)
               tt true))
       = Return body.
Proof.
  destruct (@labeled_flow_outcome (Standin.collaborators Standin.update_refused)
              (Standin.on "labeled" (lit "a" ++ MessageStart ++ lit "b") None))
    as (old & body & Hold & Hb & _);
    [reflexivity|reflexivity|reflexivity|].
  exists old, body. split; [exact Hold|exact Hb].
Defined.

(** ** The markers through dedent *)

Lemma occurs_in_line (k s : str) :
  ~ In nl k -> occurs k s -> exists l, In l (split [nl] s) /\ occurs k l.
Proof.
  intros Hk. remember (length s) as n eqn:Hn. revert s Hn.
  induction n as [n IH] using lt_wf_ind. intros s Hn O.
  rewrite split_cut by discriminate.
  destruct (cut [nl] s) as [[b a]|] eqn:C.
  - pose proof (cut_length _ _ _ _ C) as L. simpl in L.
    apply cut_sound in C. rewrite C in O. cbn [app] in O.
    apply occurs_app_char in O as [O|O]; [| |assumption].
    + exists b. split; [now left|assumption].
    + destruct (IH (length a) ltac:(lia) a eq_refl O) as (l & Hl & Ol).
      exists l. split; [now right|assumption].
  - exists s. split; [now left|assumption].
Qed.

Lemma occurs_join_in (k sep l : str) (ls : list str) :
  In l ls -> occurs k l -> occurs k (join sep ls).
Proof.
  intros Hin O. induction ls as [|x ls IH]; [destruct Hin|].
  destruct ls as [|y ls].
  - destruct Hin as [<-|[]]. exact O.
  - rewrite join_cons2. destruct Hin as [<-|Hin].
    + now apply occurs_app_l.
    + apply occurs_app_r, occurs_app_r. now apply IH.
Qed.

Lemma ws_run_le (p r : str) (c : char) :
  is_ws c = false -> ws_run (p ++ c :: r) <= length p.
Proof.
  intros Hc. induction p as [|a p IH]; cbn [app ws_run length].
  - now rewrite Hc.
  - destruct (is_ws a); lia.
Qed.

(** Dedent removes no part of an occurrence that begins with something
    else than white space. *)
Lemma occurs_strip_keeps (k l : str) (c : char) (k' : str) (m : nat) :
  k = c :: k' -> is_ws c = false ->
  (forall i, indent_of l = Some i -> m <= i) ->
  occurs k l -> occurs k (strip_line m l).
Proof.
  intros -> Hc Hi (p & q & E). unfold strip_line.
  destruct l as [|a l]; [now exists p, q|].
  destruct (char_eqb a space) eqn:Ea; [|now exists p, q].
  apply char_eqb_eq in Ea. subst a.
  assert (Hw : ws_run (space :: l) <= length p).
  { rewrite E. cbn [app]. now apply ws_run_le. }
  assert (Hp : 1 <= ws_run (space :: l)) by (cbn [ws_run]; simpl; lia).
  assert (Hl : length (space :: l) = length p + S (length k' + length q)).
  { rewrite E. rewrite !length_app. simpl. lia. }
  assert (Hm : m <= length p).
  { specialize (Hi (ws_run (space :: l))).
    unfold indent_of in Hi.
    replace (0 <? ws_run (space :: l)) with true in Hi
      by (symmetry; apply Nat.ltb_lt; lia).
    replace (ws_run (space :: l) <? length (space :: l)) with true in Hi
      by (symmetry; apply Nat.ltb_lt; lia).
    specialize (Hi eq_refl). lia. }
  rewrite E. rewrite skipn_app.
  replace (m - length p) with 0 by lia. cbn [skipn].
  now exists (skipn m p), q.
Qed.

Lemma trim_start_keeps (p r : str) (c : char) :
  is_ws c = false -> exists p', trim_start (p ++ c :: r) = p' ++ c :: r.
Proof.
  intros Hc. induction p as [|a p IH]; cbn [app trim_start].
  - rewrite Hc. now exists [].
  - destruct (is_ws a); [exact IH|]. now exists (a :: p).
Qed.

Lemma trim_end_keeps (r q : str) (c : char) :
  is_ws c = false -> exists q', trim_end (r ++ c :: q) = r ++ c :: q'.
Proof.
  intros Hc. unfold trim_end. rewrite rev_app_distr. cbn [rev].
  rewrite <- app_assoc. cbn [app].
  destruct (trim_start_keeps (rev q) (rev r) c Hc) as (p' & ->).
  exists (rev p'). rewrite rev_app_distr. cbn [rev].
  rewrite rev_involutive, <- app_assoc. reflexivity.
Qed.

Lemma occurs_trim (k s : str) (c1 c2 : char) (km : str) :
  k = c1 :: km ++ [c2] -> is_ws c1 = false -> is_ws c2 = false ->
  occurs k s -> occurs k (trim s).
Proof.
  intros -> H1 H2 (p & q & ->). unfold trim.
  cbn [app].
  destruct (trim_start_keeps p ((km ++ [c2]) ++ q) c1 H1) as (p' & ->).
  replace (p' ++ c1 :: (km ++ [c2]) ++ q) with ((p' ++ c1 :: km) ++ c2 :: q)
    by (rewrite <- !app_assoc; reflexivity).
  destruct (trim_end_keeps (p' ++ c1 :: km) q c2 H2) as (q' & ->).
  exists p', q'.
  rewrite <- ?app_assoc; cbn [app]; rewrite <- ?app_assoc; reflexivity.
Qed.

Lemma expand_newlines_app_head (s t : str) :
  head_not_in t [letter_n] ->
  expand_newlines (s ++ t) = expand_newlines s ++ expand_newlines t.
Proof.
  intros Ht. pattern s, (expand_newlines s). apply expand_newlines_ind.
  - reflexivity.
  - intros c. destruct t as [|d t]; [reflexivity|].
    cbn [app]. rewrite expand_newlines_eq.
    replace (char_eqb d letter_n) with false.
    + now rewrite andb_false_r.
    + symmetry. apply char_eqb_neq. intros ->. apply Ht. now left.
  - intros s' IH. cbn [app]. rewrite expand_newlines_eq, !char_eqb_refl.
    cbn [andb]. now rewrite IH.
  - intros c d s' Hcd IH. cbn [app]. rewrite expand_newlines_eq.
    replace (char_eqb c backslash && char_eqb d letter_n) with false.
    + cbn [app] in IH. now rewrite IH.
    + symmetry. apply andb_false_iff.
      destruct Hcd; [left|right]; now apply char_eqb_neq.
Qed.

Lemma occurs_expand_keeps (k s : str) :
  ~ In backslash k -> head_not_in k [letter_n] -> k <> [] ->
  occurs k s -> occurs k (expand_newlines s).
Proof.
  intros Hb Hn Hne (p & q & ->).
  rewrite expand_newlines_app_head.
  - rewrite expand_newlines_app_l by assumption.
    now exists (expand_newlines p), (expand_newlines q).
  - destruct k; [congruence|exact Hn].
Qed.

(** A marker of the interpolated text is in what dedent returns. *)
Lemma dedent_keeps_marker (k : str) (raw values : list str) :
  k = MessageStart \/ k = MessageEnd ->
  occurs k (interpolate raw values) -> occurs k (dedent raw values).
Proof.
  intros Hk O. unfold dedent.
  assert (F : exists c k', k = c :: k' /\ is_ws c = false)
    by (destruct Hk as [->| ->]; eexists _, _; split; reflexivity).
  destruct F as (c & k' & Ek & Hc).
  assert (G : exists c1 km c2,
             k = c1 :: km ++ [c2] /\ is_ws c1 = false /\ is_ws c2 = false)
    by (destruct Hk as [->| ->];
        [exists 60%N, (removelast (tl MessageStart)), 62%N
        |exists 60%N, (removelast (tl MessageEnd)), 62%N];
        repeat split; reflexivity).
  destruct G as (c1 & km & c2 & Ek2 & H1 & H2).
  apply occurs_expand_keeps;
    [destruct Hk as [->| ->]; apply not_in_b; reflexivity
    |destruct Hk as [->| ->]; apply not_in_b; reflexivity
    |destruct Hk as [->| ->]; discriminate|].
  apply (occurs_trim k _ c1 c2 km Ek2 H1 H2).
  unfold strip_indentation. cbv zeta.
  destruct (mindent_of (split [nl] (interpolate raw values))) as [m|] eqn:Hm;
    [|exact O].
  destruct (occurs_in_line k (interpolate raw values)) as (l & Hl & Ol);
    [destruct Hk as [->| ->]; apply not_in_b; reflexivity|exact O|].
  apply (occurs_join_in k [nl] (strip_line m l)).
  - now apply in_map.
  - apply (occurs_strip_keeps k l c k' m Ek Hc); [|exact Ol].
    intros i Hi.
    destruct (mindent_bound _ l i Hl Hi) as (m' & Hm' & Hb).
    rewrite Hm in Hm'. injection Hm' as <-. lia.
Qed.

(** X12.  The description written at the opening is on-boarded.  For an
    [opened] event on a pull request without release label, whatever the
    body, the description handed to the update holds the start marker and
    the end marker, so that later events find the envelope and its message
    can be extracted. *)
Theorem opened_description_is_onboarded `{Collaborators} (context : PRContext) :
  is_action context "opened" = true ->
  hasReleaseLabels (getLabelRelease context (getConfig context)) = false ->
  exists written,
    handler context
    = (populates (getConfig context) ++ [UpdateBody written], Return tt)
    /\ isOnboarding written = true
    /\ includes MessageEnd written = true
    /\ exists m, parseMessage written = Return m.
Proof.
  intros Ha Hr.
  set (w := messageWrapper
              (onBoardingMessage (sectionsOf context (getConfig context) false))).
  exists (dedent opened_raw [pr_body context; w]).
  assert (O : forall k, k = MessageStart \/ k = MessageEnd ->
                        includes k (dedent opened_raw [pr_body context; w]) = true).
  { intros k Hk. apply includes_occurs. apply dedent_keeps_marker; [exact Hk|].
    rewrite opened_text.
    apply (occurs_part k _ w
             (nl :: (lit "      " ++ pr_body context) ++ nl :: lit "      " ++ nl
                 :: lit "      ")
             (nl :: lit "    ")).
    - cbn [app]. rewrite <- !app_assoc. cbn [app]. rewrite <- ?app_assoc.
      reflexivity.
    - unfold w.
      destruct (messageWrapper_shape
                  (onBoardingMessage (sectionsOf context (getConfig context) false)))
        as (m & _ & ->).
      set (mid := expand_newlines (wrapper_mid m _)).
      destruct Hk as [->| ->].
      + now exists [], (mid ++ MessageEnd).
      + exists (MessageStart ++ mid), [].
        now rewrite app_nil_r, <- app_assoc. }
  split; [|split; [|split]].
  - unfold handler. rewrite Ha, Hr. cbn [andb negb].
    unfold openedFlow. rewrite createLabelChecklists_run. reflexivity.
  - apply O. now left.
  - apply O. now right.
  - apply parseMessage_returns. apply O. now left.
Qed.

Lemma opened_description_is_onboarded_witness :
  exists written,
    @handler (Standin.collaborators Standin.quiet)
      (Standin.on "opened" (unlines [lit "Steps:"; lit "    make release"]) None)
    = (@populates (Standin.collaborators Standin.quiet) tt
       ++ [UpdateBody written], Return tt)
    /\ isOnboarding written = true.
Proof.
  destruct (@opened_description_is_onboarded
              (Standin.collaborators Standin.quiet)
              (Standin.on "opened"
                 (unlines [lit "Steps:"; lit "    make release"]) None))
    as (written & Hh & Ho & _); [reflexivity|reflexivity|].
  exists written. split; assumption.
Defined.

(** ** Counting the label changes *)

Lemma keep_truthy_length (l : list (option str)) :
  length (keep_truthy l) = length (filter truthy l).
Proof.
  induction l as [|[[|c s]|] l IH]; cbn [keep_truthy filter truthy length]; auto.
Qed.

Lemma keep_truthy_partition {A} (f : A -> option str) (p : A -> bool) (l : list A) :
  length (keep_truthy (map f (filter p l)))
  + length (keep_truthy (map f (filter (fun a => negb (p a)) l)))
  = length (filter (fun a => truthy (f a)) l).
Proof.
  induction l as [|a l IH]; [reflexivity|].
  cbn [filter]. destruct (p a); cbn [negb map];
    rewrite !keep_truthy_length in *; cbn [filter];
    destruct (truthy (f a)); cbn [length]; lia.
Qed.

Lemma filter_concat_length {A} (p : A -> bool) (ls : list (list A)) :
  length (filter p (concat ls))
  = list_sum (map (fun l => length (filter p l)) ls).
Proof.
  induction ls as [|l ls IH]; [reflexivity|].
  simpl. now rewrite filter_app, length_app, IH.
Qed.

Lemma list_sum_filter {A} (k : A -> bool) (f : A -> nat) (l : list A) :
  list_sum (map f (filter k l))
  = list_sum (map (fun a => if k a then f a else 0) l).
Proof.
  induction l as [|a l IH]; [reflexivity|].
  simpl. destruct (k a); simpl; lia.
Qed.

Lemma list_sum_le {A} (f g : A -> nat) (l : list A) :
  (forall a, f a <= g a) -> list_sum (map f l) <= list_sum (map g l).
Proof.
  intros Hfg. induction l as [|a l IH]; [reflexivity|].
  simpl. specialize (Hfg a). lia.
Qed.

(** X13.  Every item of a parsed checklist of key semver or skipRelease
    that resolves to a label is counted once in the label changes: the
    labels to add and the labels to remove are together as many as the
    items, over the checklists parsed from the message whose id is one of
    the two keys, whose id resolves to a non-empty label name; hence no
    more than the items of the parsed checklists; and a label is in a list
    only through an item of a checklist whose id is one of the two keys. *)
Theorem label_changes_count `{Collaborators} (body message : str)
    (config : Config) :
  parseMessage body = Return message ->
  let parsed := values (parseAutoChecklists message) in
  let resolvable := fun i => truthy (findLabelFromHash (item_id i) config) in
  exists changes,
    getRequiredLabelChanges body config = Return changes
    /\ length (labelsToAdd changes) + length (labelsToRemove changes)
       = list_sum
           (map (fun c => if keyed c
                          then length (filter resolvable (items c)) else 0)
              parsed)
    /\ length (labelsToAdd changes) + length (labelsToRemove changes)
       <= list_sum (map (fun c => length (items c)) parsed)
    /\ forall n,
         In n (labelsToAdd changes) \/ In n (labelsToRemove changes) ->
         exists c i,
           In c (values (parseAutoChecklists message))
           /\ In (checklist_id c) ChecklistKey.all
           /\ In i (items c)
           /\ resolves config i n.
Proof.
  intros E parsed resolvable.
  exists (labelChangesOf (parseAutoChecklists message) config).
  split; [exact (getRequiredLabelChanges_run body message config E)|].
  assert (Hc : length (labelsToAdd (labelChangesOf (parseAutoChecklists message) config))
               + length (labelsToRemove
                           (labelChangesOf (parseAutoChecklists message) config))
               = list_sum
                   (map (fun c => if keyed c
                                  then length (filter resolvable (items c)) else 0)
                      parsed)).
  { unfold labelChangesOf, labelsToAdd, labelsToRemove.
    rewrite (keep_truthy_partition
               (fun i => getLabelTextFromChecklistItem i config) checked).
    unfold checklistItemsOf. fold parsed.
    rewrite filter_concat_length, map_map.
    rewrite (list_sum_filter
               (fun c => existsb (str_eqb (checklist_id c)) ChecklistKey.all)
               (fun c => length
                           (filter (fun a => truthy
                                               (getLabelTextFromChecklistItem a config))
                              (items c)))).
    f_equal. apply map_ext. intros c. unfold keyed.
    cbn [existsb ChecklistKey.all]. now rewrite orb_false_r. }
  split; [exact Hc|]. split.
  - rewrite Hc. apply list_sum_le. intros c.
    destruct (keyed c); [apply filter_length_le|lia].
  - intros n Hn.
    assert (Hi : exists i, In i (checklistItemsOf (parseAutoChecklists message))
                           /\ resolves config i n).
    { destruct Hn as [Hn|Hn]; apply labelChangesOf_In in Hn
        as (i & Hi & _ & R); eauto. }
    destruct Hi as (i & Hi & R). unfold checklistItemsOf in Hi.
    apply in_concat in Hi as (l & Hl & Hil).
    apply in_map_iff in Hl as (c & <- & Hc').
    apply filter_In in Hc' as [Hc' Hk].
    exists c, i. repeat split; try assumption; try apply R.
    apply existsb_exists in Hk as (k & Hk & Ek).
    apply str_eqb_eq in Ek. now rewrite Ek.
Qed.

Lemma label_changes_count_witness :
  exists changes,
    @getRequiredLabelChanges (Standin.collaborators Standin.quiet)
      (Standin.tick "major" Standin.onboarded) tt = Return changes
    /\ length (labelsToAdd changes) + length (labelsToRemove changes) = 4.
Proof.
  destruct (@label_changes_count (Standin.collaborators Standin.quiet)
              (Standin.tick "major" Standin.onboarded)
              (Standin.message_of (Standin.tick "major" Standin.onboarded)) tt)
    as (changes & E & C & _).
  - vm_compute. reflexivity.
  - exists changes. split; [exact E|].
    rewrite C. vm_compute. reflexivity.
Defined.

(** ** The exact text of the on-boarding message *)

Lemma trim_end_nl (s : str) : trim_end (s ++ [nl]) = trim_end s.
Proof. unfold trim_end. rewrite rev_app_distr. reflexivity. Qed.

Lemma trim_start_suffix (s : str) : exists w, s = w ++ trim_start s.
Proof.
  induction s as [|c s IH]; [now exists []|].
  cbn [trim_start]. destruct (is_ws c); [|now exists []].
  destruct IH as (w & E). exists (c :: w). cbn [app]. now rewrite <- E.
Qed.

Lemma trim_end_prefix (s : str) : exists w, s = trim_end s ++ w.
Proof.
  unfold trim_end. destruct (trim_start_suffix (rev s)) as (w & E).
  exists (rev w). rewrite <- rev_app_distr, <- E. now rewrite rev_involutive.
Qed.

(** The last replacement changes nothing in a text without a written-out
    backslash-n. *)
Lemma expand_newlines_id (s : str) :
  includes [backslash; letter_n] s = false -> expand_newlines s = s.
Proof.
  intros Hs. pose proof (expand_newlines_clean s [] Hs) as E.
  rewrite expand_newlines_app_head in E by (apply not_in_b; reflexivity).
  change (expand_newlines s ++ [nl] = s ++ [nl]) in E.
  now apply app_inv_tail in E.
Qed.

Lemma no_bsn_after (z s : str) :
  never_starts [backslash; letter_n] z = true ->
  includes [backslash; letter_n] s = false ->
  includes [backslash; letter_n] (z ++ s) = false.
Proof.
  intros Hz Hs. apply includes_false_cut. apply includes_false_cut in Hs.
  rewrite (cut_never_starts _ z s Hz). now rewrite Hs.
Qed.

Lemma onboarding_text (s : str) :
  interpolate onBoardingMessage_raw [s] =
  join [nl] onboarding_head ++ nl :: (lit "    " ++ s) ++ nl :: lit "  ".
Proof. vm_compute. reflexivity. Qed.

Lemma onboarding_lines (s : str) :
  split [nl] (interpolate onBoardingMessage_raw [s]) =
  onboarding_head ++ split [nl] (lit "    " ++ s) ++ [lit "  "].
Proof.
  rewrite onboarding_text, !split_char_app.
  assert (E : split [nl] (join [nl] onboarding_head) = onboarding_head)
    by (vm_compute; reflexivity).
  now rewrite E.
Qed.

Lemma onboarding_exact (sections : list str) :
  let s := join [nl; nl] sections in
  flush s = true ->
  includes [backslash; letter_n] s = false ->
  onBoardingMessage sections = trim_end (onboarding_intro ++ s).
Proof.
  intros s Hf Hbn. unfold onBoardingMessage. fold s.
  destruct (split_hd [nl] s ltac:(discriminate)) as (s1 & ss & Es).
  unfold flush in Hf. rewrite Es in Hf. cbn [tl] in Hf.
  assert (Ls : split [nl] (lit "    " ++ s) = (lit "    " ++ s1) :: ss).
  { apply split_prepend; [apply not_in_b; reflexivity|exact Es]. }
  destruct (mindent_bound
              (onboarding_head ++ split [nl] (lit "    " ++ s) ++ [lit "  "])
              (lit "    ### Choose a release label") 4)
    as (m & Hm & Hb).
  { right. right. right. left. reflexivity. }
  { reflexivity. }
  assert (H4 : 4 <= m).
  { apply (mindent_ge 4
             (onboarding_head ++ split [nl] (lit "    " ++ s) ++ [lit "  "]) m);
      [lia| |exact Hm].
    intros l k Hin Hk. rewrite Ls in Hin.
    apply in_app_or in Hin as [Hin|Hin];
      [|apply in_app_or in Hin as [[<-|Hin]|Hin]].
    - destruct Hin as [<-|[<-|[<-|[<-|[<-|[<-|[<-|[<-|[]]]]]]]]];
        vm_compute in Hk; try discriminate; injection Hk as <-; lia.
    - now apply (indent_of_padded s1).
    - rewrite forallb_forall in Hf. specialize (Hf l Hin).
      apply negb_true_iff in Hf. rewrite (indent_of_flush l Hf) in Hk.
      discriminate.
    - destruct Hin as [<-|[]]. vm_compute in Hk. discriminate. }
  assert (m = 4) by lia. subst m.
  unfold dedent, strip_indentation. cbv zeta.
  rewrite onboarding_lines, Hm, Ls, !map_app. cbn [map].
  rewrite (strip_flush 4 ss Hf).
  replace (strip_line 4 (lit "    " ++ s1)) with s1 by reflexivity.
  replace (strip_line 4 (lit "  ")) with (@nil N) by reflexivity.
  rewrite join_app by discriminate.
  rewrite (join_app [nl] (s1 :: ss)) by discriminate.
  rewrite <- Es, join_split by discriminate.
  replace (join [nl] (map (strip_line 4) onboarding_head) ++ [nl] ++ s ++ [nl]
           ++ join [nl] [[]])
    with ([nl] ++ (60%N :: (tl onboarding_intro ++ s) ++ [nl]))
    by (cbn [join]; rewrite app_nil_r;
        change (60%N :: (tl onboarding_intro ++ s) ++ [nl])
          with ((60%N :: tl onboarding_intro) ++ s ++ [nl]);
        reflexivity).
  unfold trim. rewrite trim_start_ws by reflexivity.
  change (60%N :: (tl onboarding_intro ++ s) ++ [nl])
    with ((onboarding_intro ++ s) ++ [nl]).
  rewrite trim_end_nl.
  apply expand_newlines_id.
  destruct (trim_end_prefix (onboarding_intro ++ s)) as (w & E).
  apply (includes_part _ (onboarding_intro ++ s) [] _ w); [exact E|].
  apply no_bsn_after; [reflexivity|exact Hbn].
Qed.

(** X14.  The exact text of the on-boarding message.  When no line after
    the first of the sections joined by blank lines begins with white
    space and no backslash is followed by the letter n, the message is
    the introduction followed by the sections separated by blank lines,
    without the white space at its end. *)
Theorem onBoardingMessage_exact (sections : list str) :
  let s := join [nl; nl] sections in
  flush s = true ->
  includes [backslash; letter_n] s = false ->
  onBoardingMessage sections = trim_end (onboarding_intro ++ s).
Proof. apply onboarding_exact. Qed.

Lemma onBoardingMessage_exact_witness :
  onBoardingMessage [lit "## semver"; lit "## skip "] =
  onboarding_intro ++ unlines [lit "## semver"; []; lit "## skip"].
Proof.
  rewrite (onBoardingMessage_exact [lit "## semver"; lit "## skip "]);
    reflexivity.
Defined.

(** ** The exact text of a section *)

Lemma no_bsn_lines (a b : str) :
  includes [backslash; letter_n] a = false ->
  includes [backslash; letter_n] b = false ->
  includes [backslash; letter_n] (a ++ nl :: b) = false.
Proof.
  intros Ha Hb. apply includes_false_occurs. intros O.
  apply occurs_app_char in O as [O|O]; [| |apply not_in_b; reflexivity].
  - apply includes_false_occurs in Ha. contradiction.
  - apply includes_false_occurs in Hb. contradiction.
Qed.

Lemma section_text (h c w : str) :
  interpolate section_raw [h; c; w] =
  join [nl] section_head ++ nl :: (lit "    " ++ h) ++ nl :: lit "    " ++ nl
    :: (lit "    " ++ c) ++ nl :: (lit "    " ++ w) ++ nl :: lit "    ".
Proof. vm_compute. reflexivity. Qed.

Lemma section_lines (h c w : str) :
  split [nl] (interpolate section_raw [h; c; w]) =
  section_head ++ split [nl] (lit "    " ++ h) ++ [lit "    "]
  ++ split [nl] (lit "    " ++ c) ++ split [nl] (lit "    " ++ w)
  ++ [lit "    "].
Proof.
  rewrite section_text, !split_char_app. reflexivity.
Qed.

Lemma padded_lines (x : str) :
  flush x = true ->
  exists x1 xs,
    split [nl] x = x1 :: xs
    /\ split [nl] (lit "    " ++ x) = (lit "    " ++ x1) :: xs
    /\ map (strip_line 4) ((lit "    " ++ x1) :: xs) = x1 :: xs
    /\ forall l k, In l ((lit "    " ++ x1) :: xs) -> indent_of l = Some k -> 4 <= k.
Proof.
  intros Hf.
  destruct (split_hd [nl] x ltac:(discriminate)) as (x1 & xs & Ex).
  unfold flush in Hf. rewrite Ex in Hf. cbn [tl] in Hf.
  exists x1, xs. split; [exact Ex|]. split.
  { apply split_prepend; [apply not_in_b; reflexivity|exact Ex]. }
  split.
  { cbn [map]. rewrite (strip_flush 4 xs Hf). reflexivity. }
  intros l k [<-|Hin] Hk.
  - now apply (indent_of_padded x1).
  - rewrite forallb_forall in Hf. specialize (Hf l Hin).
    apply negb_true_iff in Hf. rewrite (indent_of_flush l Hf) in Hk.
    discriminate.
Qed.

Lemma section_dedent (h c w : str) :
  flush h = true -> flush c = true -> flush w = true ->
  includes [backslash; letter_n] h = false ->
  includes [backslash; letter_n] c = false ->
  includes [backslash; letter_n] w = false ->
  dedent section_raw [h; c; w] =
  trim_end (lit "##" ++ [nl; nl] ++ h ++ [nl; nl] ++ c ++ nl :: w).
Proof.
  intros Fh Fc Fw Bh Bc Bw.
  destruct (padded_lines h Fh) as (h1 & hs & Eh & Lh & Sh & Ih).
  destruct (padded_lines c Fc) as (c1 & cs & Ec & Lc & Sc & Ic).
  destruct (padded_lines w Fw) as (w1 & ws & Ew & Lw & Sw & Iw).
  destruct (mindent_bound
              (section_head ++ split [nl] (lit "    " ++ h) ++ [lit "    "]
               ++ split [nl] (lit "    " ++ c) ++ split [nl] (lit "    " ++ w)
               ++ [lit "    "])
              (lit "    ##") 4)
    as (m & Hm & Hb).
  { right. left. reflexivity. }
  { reflexivity. }
  assert (H4 : 4 <= m).
  { apply (mindent_ge 4
             (section_head ++ split [nl] (lit "    " ++ h) ++ [lit "    "]
              ++ split [nl] (lit "    " ++ c) ++ split [nl] (lit "    " ++ w)
              ++ [lit "    "]) m);
      [lia| |exact Hm].
    intros l k Hin Hk. rewrite Lh, Lc, Lw in Hin.
    apply in_app_or in Hin as [Hin|Hin].
    { destruct Hin as [<-|[<-|[<-|[]]]]; vm_compute in Hk;
        try discriminate; injection Hk as <-; lia. }
    apply in_app_or in Hin as [Hin|Hin]; [now apply (Ih l k)|].
    apply in_app_or in Hin as [Hin|Hin].
    { destruct Hin as [<-|[]]. vm_compute in Hk. discriminate. }
    apply in_app_or in Hin as [Hin|Hin]; [now apply (Ic l k)|].
    apply in_app_or in Hin as [Hin|Hin]; [now apply (Iw l k)|].
    destruct Hin as [<-|[]]. vm_compute in Hk. discriminate. }
  assert (m = 4) by lia. subst m.
  unfold dedent, strip_indentation. cbv zeta.
  rewrite section_lines, Hm, Lh, Lc, Lw, !map_app, Sh, Sc, Sw.
  replace (map (strip_line 4) section_head) with [@nil N; lit "##"; []]
    by reflexivity.
  replace (map (strip_line 4) [lit "    "]) with [@nil N] by reflexivity.
  rewrite (join_app [nl] [[]; lit "##"; []]) by discriminate.
  rewrite (join_app [nl] (h1 :: hs)) by discriminate.
  rewrite (join_app [nl] [[]]) by discriminate.
  rewrite (join_app [nl] (c1 :: cs)) by discriminate.
  rewrite (join_app [nl] (w1 :: ws)) by discriminate.
  rewrite <- Eh, <- Ec, <- Ew, !join_split by discriminate.
  replace (join [nl] [[]; lit "##"; []] ++ [nl] ++ h ++ [nl] ++ join [nl] [[]]
           ++ [nl] ++ c ++ [nl] ++ w ++ [nl] ++ join [nl] [[]])
    with ([nl] ++ (35%N :: (lit "#" ++ [nl; nl] ++ h ++ [nl; nl] ++ c ++ nl :: w)
                   ++ [nl]))
    by (change (lit "##") with (35%N :: lit "#");
        cbn [join app]; rewrite ?app_nil_r;
        repeat (rewrite <- app_assoc; cbn [app]); reflexivity).
  unfold trim. rewrite trim_start_ws by reflexivity.
  change (35%N :: (lit "#" ++ [nl; nl] ++ h ++ [nl; nl] ++ c ++ nl :: w) ++ [nl])
    with ((lit "##" ++ [nl; nl] ++ h ++ [nl; nl] ++ c ++ nl :: w) ++ [nl]).
  rewrite trim_end_nl.
  apply expand_newlines_id.
  destruct (trim_end_prefix (lit "##" ++ [nl; nl] ++ h ++ [nl; nl] ++ c ++ nl :: w))
    as (t & E).
  apply (includes_part _ _ [] _ t E).
  change (lit "##" ++ [nl; nl] ++ h ++ [nl; nl] ++ c ++ nl :: w)
    with (lit "##" ++ nl :: ([] ++ nl :: (h ++ nl :: ([] ++ nl :: (c ++ nl :: w))))).
  repeat (apply no_bsn_lines; try assumption; try reflexivity).
Qed.

(** X15.  The exact text of a section.  When the header, the checklist and
    the warning line have no line after the first that begins with white
    space and no backslash followed by the letter n, a section is the
    heading, a blank line, the header, a blank line, the checklist and,
    when there is a warning, a blank line and the warning, without the
    white space at its end. *)
Theorem section_exact `{Collaborators} (header checklist : str)
    (warning : option str) :
  let w :=
    if truthy warning
    then [nl] ++ sub (lit ":warning: " ++ italics (bold (js_string warning)))
    else [] in
  flush header = true -> flush checklist = true -> flush w = true ->
  includes [backslash; letter_n] header = false ->
  includes [backslash; letter_n] checklist = false ->
  includes [backslash; letter_n] w = false ->
  section header checklist warning =
  trim_end (lit "##" ++ [nl; nl] ++ header ++ [nl; nl] ++ checklist ++ nl :: w).
Proof.
  intros w. unfold section. fold w. apply section_dedent.
Qed.

Lemma section_exact_witness :
  @section (Standin.collaborators Standin.quiet)
    (lit "<sub>**Semver Labels**</sub>")
    (unlines [lit "- [x] major"; lit "- [x] minor"])
    (Some (lit "At most one"))
  = unlines
      [ lit "##"; [];
        lit "<sub>**Semver Labels**</sub>"; [];
        lit "- [x] major"; lit "- [x] minor"; [];
        lit "<sub>:warning: _**At most one**_</sub>" ].
Proof.
  rewrite (@section_exact (Standin.collaborators Standin.quiet)); reflexivity.
Defined.
